(** * Agnirath strategy_v7: velocity-profile feasibility model

    A shallow embedding of the solar-car strategy core
    ([config.py], [car.py], [solar.py], [constraints.py], [profiles.py])
    and the properties its specification states about it.

    Numbers.  The Python code computes with NumPy [float64] arrays.  They are
    embedded as lists of real numbers: every arithmetic operation is the
    exact one, so rounding, infinities and NaN are outside the model.
    Division is Rocq's total [Rdiv]: where a divisor is zero NumPy yields
    [inf] or [nan], which the embedding does not represent, so the concrete
    runs below keep every divisor away from zero and the statements about a
    zero divisor speak of the divisor itself.

    Control.  A Python call either returns, raises, or is still running when
    the number of loop passes it is given is used up; [outcome] has one
    constructor for each.  That number only bounds how long the
    [while True] loop of [calculate_power] is watched: the loop itself has
    no counter. *)

From Stdlib Require Import Reals Lra Lia List ZArith Psatz Bool.
Import ListNotations.
Local Open Scope R_scope.

(** ** Outcomes of a call *)

Inductive exn : Type :=
| ValueError.   (* operands could not be broadcast / reduction of an empty array *)

Inductive outcome (A : Type) : Type :=
| Returns (a : A)
| Raises (e : exn)
| Running.

Arguments Returns {A} a.
Arguments Raises {A} e.
Arguments Running {A}.

Definition bind {A B : Type} (m : outcome A) (k : A -> outcome B) : outcome B :=
  match m with
  | Returns a => k a
  | Raises e => Raises e
  | Running => Running
  end.

Notation "x <- m ;; k" := (bind m (fun x => k))
  (at level 61, m at next level, right associativity).
Notation "' ( x , y ) <- m ;; k" := (bind m (fun p => let '(x, y) := p in k))
  (at level 61, x name, y name, m at next level, right associativity).

(** ** One-dimensional arrays *)

Module Np.

Definition ndarray : Type := list R.

Fixpoint zip_with {A B C : Type} (f : A -> B -> C) (xs : list A) (ys : list B) : list C :=
  match xs, ys with
  | x :: xs', y :: ys' => f x y :: zip_with f xs' ys'
  | _, _ => []
  end.

(** Elementwise binary operation under NumPy's broadcasting rule for two
    one-dimensional operands: equal lengths, or one operand of length one
    which is stretched; anything else raises. *)
Definition broadcast (f : R -> R -> R) (xs ys : ndarray) : outcome ndarray :=
  if Nat.eqb (length xs) (length ys) then Returns (zip_with f xs ys)
  else match xs, ys with
       | [x], _ => Returns (map (f x) ys)
       | _, [y] => Returns (map (fun x => f x y) xs)
       | _, _ => Raises ValueError
       end.

Definition add := broadcast Rplus.
Definition sub := broadcast Rminus.
Definition mul := broadcast Rmult.
Definition div := broadcast Rdiv.

(** [a[:-1]] and [a[1:]] *)
Definition but_last (a : ndarray) : ndarray := removelast a.
Definition from_1 (a : ndarray) : ndarray := tl a.

(** [np.sum] *)
Definition sum (a : ndarray) : R := fold_right Rplus 0 a.

(** [a.cumsum()] *)
Fixpoint cumsum_from (acc : R) (a : ndarray) : ndarray :=
  match a with
  | [] => []
  | x :: a' => (acc + x) :: cumsum_from (acc + x) a'
  end.

Definition cumsum (a : ndarray) : ndarray := cumsum_from 0 a.

(** [np.min] and [np.max]: a reduction of an empty array raises. *)
Definition min (a : ndarray) : outcome R :=
  match a with
  | [] => Raises ValueError
  | x :: a' => Returns (fold_left Rmin a' x)
  end.

Definition max (a : ndarray) : outcome R :=
  match a with
  | [] => Raises ValueError
  | x :: a' => Returns (fold_left Rmax a' x)
  end.

(** [a.clip(0)] *)
Definition clip0 (a : ndarray) : ndarray := map (Rmax 0) a.

(** [x % d] on floats: the remainder has the sign of the divisor. *)
Definition remainder (x d : R) : R := x - d * IZR (Zfloor (x / d)).

(** [np.radians] *)
Definition radians (x : R) : R := x * PI / 180.

(** [a < b] as a boolean *)
Definition ltb (a b : R) : bool := if Rlt_dec a b then true else false.

End Np.

(** ** config.py *)

Record Config : Type := {
  RaceStartTime : R;
  RaceEndTime : R;
  BatteryCapacity : R;
  DeepDischargeCap : R;
  InitialBatteryCapacity : R;
  R_Out : R;
  Mass : R;
  ZeroSpeedCrr : R;
  CDA : R;
  PanelArea : R;
  PanelEfficiency : R;
  BusVoltage : R;
  AirDensity : R;
  GravityAcc : R;
  Ta : R;
  MaxVelocity : R;
  MaxCurrent : R
}.

(** The values of [config.py], for the constants the modules below import. *)
Definition config : Config := {|
  RaceStartTime := 9 * 3600;
  RaceEndTime := (12 + 5) * 3600;
  BatteryCapacity := 3055;
  DeepDischargeCap := 0.2;
  InitialBatteryCapacity := 3055 * 0.36;
  R_Out := 0.2785;
  Mass := 260;
  ZeroSpeedCrr := 0.0045;
  CDA := 0.092 * 1;
  PanelArea := 6;
  PanelEfficiency := 0.19;
  BusVoltage := 4.2 * 38;
  AirDensity := 1.192;
  GravityAcc := 9.81;
  Ta := 295;
  MaxVelocity := 35;
  MaxCurrent := 12.3
|}.

(** ** car.py *)

Definition EPSILON : R := / 10 ^ 8.

Definition calculate_dt (start_speed stop_speed dx : Np.ndarray) : outcome Np.ndarray :=
  s <- Np.add start_speed stop_speed ;;
  Np.div (map (fun d => 2 * d) dx) (map (fun v => v + EPSILON) s).

Section Car.

Variable cfg : Config.

Definition _frictional_tou : R := R_Out cfg * Mass cfg * GravityAcc cfg * ZeroSpeedCrr cfg.
Definition _drag_coeff : R := 0.5 * CDA cfg * AirDensity cfg * (R_Out cfg ^ 3).
Definition _drag_coeff_wR2 : R := _drag_coeff / R_Out cfg ^ 2.
Definition _slope_coeff : R := Mass cfg * GravityAcc cfg.
Definition _windage_losses_coeff_wR2 : R := (170.4 * / 10 ^ 6) / (R_Out cfg ^ 2).

(** What one pass through the body of the [while True] loop computes for
    one array element, from the winding temperature [Tw_i] it starts with. *)
Record winding : Type := { w_Pc : R; w_Pe : R; w_Tw : R }.

Definition winding_pass (tou speed2 Tw_i : R) : winding :=
  let B := 1.6716 - 0.0006 * (Ta cfg + Tw_i) in
  let i := 0.561 * B * tou in
  let resistance := 0.00022425 * Tw_i - 0.00820525 in
  let Pc := 3 * i ^ 2 * resistance in
  let Pe := (9.602 * (/ 10 ^ 6) * ((B / R_Out cfg) ^ 2) / resistance) * speed2 in
  let Tw := 0.455 * (Pc + Pe) + Ta cfg in
  {| w_Pc := Pc; w_Pe := Pe; w_Tw := Tw |}.

(** [cond = np.abs(Tw - Tw_i) < 0.001] for one element *)
Definition converged (w : winding) (Tw_i : R) : bool :=
  Np.ltb (Rabs (w_Tw w - Tw_i)) 0.001.

(** The loop: [fuel] passes are watched.  [np.all(cond)] leaves the loop
    with the copper and eddy losses of the current pass; otherwise
    [np.where(cond, Tw_i, Tw)] keeps the temperature of the elements that
    have converged and replaces the others. *)
Fixpoint winding_loop (fuel : nat) (tou speed2 Tw_i : Np.ndarray)
  : outcome (Np.ndarray * Np.ndarray) :=
  match fuel with
  | O => Running
  | S fuel' =>
      let pass := Np.zip_with (fun ts t => winding_pass (fst ts) (snd ts) t)
                              (combine tou speed2) Tw_i in
      let cond := Np.zip_with converged pass Tw_i in
      if forallb (fun c => c) cond
      then Returns (map w_Pc pass, map w_Pe pass)
      else winding_loop fuel' tou speed2
             (Np.zip_with (fun (ct : bool * R) w => if fst ct then snd ct else w_Tw w)
                          (combine cond Tw_i) pass)
  end.

Definition calculate_power (fuel : nat) (speed acceleration slope : Np.ndarray)
  : outcome (Np.ndarray * Np.ndarray) :=
  let speed2 := map (fun v => v ^ 2) speed in
  let drag_tou := map (fun v2 => _drag_coeff_wR2 * v2) speed2 in
  let tou := map (fun d => _frictional_tou + d) drag_tou in
  (* [Tw_i = Ta]: the scalar is stretched over the elements of [speed] *)
  let Tw_i := map (fun _ => Ta cfg) speed in
  '(Pc, Pe) <- winding_loop fuel tou speed2 Tw_i ;;
  let P_out := map (fun x => x / R_Out cfg) (Np.zip_with Rmult tou speed) in
  let Pw := map (fun v2 => v2 * _windage_losses_coeff_wR2) speed2 in
  f <- Np.add (map (fun a => Mass cfg * a) acceleration)
              (map (fun s => _slope_coeff * sin (Np.radians s)) slope) ;;
  P_acc <- Np.mul f speed ;;
  p1 <- Np.add P_out Pw ;;
  p2 <- Np.add p1 Pc ;;
  p3 <- Np.add p2 Pe ;;
  P_net <- Np.add p3 P_acc ;;
  Returns (Np.clip0 P_net, P_out).

(** ** solar.py *)

Definition DT : R := RaceEndTime cfg - RaceStartTime cfg.
Definition _power_coeff : R := PanelArea cfg * PanelEfficiency cfg.

Definition _calc_solar_irradiance (time : R) : R :=
  1073.099 * exp (-0.5 * ((time - 51908.735) / 11484.950) ^ 2).

Definition calculate_incident_solarpower (globaltime latitude longitude : Np.ndarray)
  : Np.ndarray :=
  let gt := map (fun t => Np.remainder t DT) globaltime in
  let intensity := map (fun g => _calc_solar_irradiance (RaceStartTime cfg + g)) gt in
  map (fun x => x * _power_coeff) intensity.

(** ** constraints.py *)

Definition SafeBatteryLevel : R := BatteryCapacity cfg * DeepDischargeCap cfg.
Definition MaxPower : R := MaxCurrent cfg * BusVoltage cfg.

(** A Python list repeated a negative number of times is empty. *)
Definition get_bounds (N : Z) : list (R * R) :=
  [(0, 0)] ++ repeat (0.01, MaxVelocity cfg) (Z.to_nat (N - 2)) ++ [(0, 0)].

Definition objective (velocity_profile segment_array : Np.ndarray) : outcome R :=
  dt <- calculate_dt (Np.but_last velocity_profile) (Np.from_1 velocity_profile)
                     segment_array ;;
  Returns (Np.sum dt).

(** The local variables of [battery_acc_constraint_func] when it reaches its
    [return] statement. *)
Record constraint_locals : Type := {
  c_avg_speed : Np.ndarray;
  c_dt : Np.ndarray;
  c_acceleration : Np.ndarray;
  c_P : Np.ndarray;
  c_PO : Np.ndarray;
  c_SolP : Np.ndarray;
  c_energy_consumption : Np.ndarray;
  c_battery_profile : Np.ndarray
}.

(** The body of [battery_acc_constraint_func] down to the assignment of
    [battery_profile]. *)
Definition battery_acc_locals (fuel : nat)
  (v_prof segment_array slope_array latitude_array longitude_array : Np.ndarray)
  : outcome constraint_locals :=
  let start_speeds := Np.but_last v_prof in
  let stop_speeds := Np.from_1 v_prof in
  s <- Np.add start_speeds stop_speeds ;;
  let avg_speed := map (fun x => x / 2) s in
  dt <- calculate_dt start_speeds stop_speeds segment_array ;;
  d <- Np.sub stop_speeds start_speeds ;;
  acceleration <- Np.div d dt ;;
  '(P, PO) <- calculate_power fuel avg_speed acceleration slope_array ;;
  let SolP := calculate_incident_solarpower (Np.cumsum dt) latitude_array longitude_array in
  e <- Np.sub P SolP ;;
  e_dt <- Np.mul e dt ;;
  let energy_consumption := map (fun x => x / 3600) (Np.cumsum e_dt) in
  let battery_profile :=
    map (fun x => InitialBatteryCapacity cfg - x - SafeBatteryLevel) energy_consumption in
  Returns {|
    c_avg_speed := avg_speed;
    c_dt := dt;
    c_acceleration := acceleration;
    c_P := P;
    c_PO := PO;
    c_SolP := SolP;
    c_energy_consumption := energy_consumption;
    c_battery_profile := battery_profile
  |}.

(** The array whose maximum is the second returned component:
    [PO.clip(0) / (Mass * avg_speed) - acceleration]. *)
Definition acceleration_margin (l : constraint_locals) : outcome Np.ndarray :=
  q <- Np.div (Np.clip0 (c_PO l)) (map (fun a => Mass cfg * a) (c_avg_speed l)) ;;
  Np.sub q (c_acceleration l).

Definition battery_acc_constraint_func (fuel : nat)
  (v_prof segment_array slope_array latitude_array longitude_array : Np.ndarray)
  : outcome (R * R) :=
  l <- battery_acc_locals fuel v_prof segment_array slope_array
         latitude_array longitude_array ;;
  b <- Np.min (c_battery_profile l) ;;
  m <- acceleration_margin l ;;
  a <- Np.max m ;;
  Returns (b, a).

(** ** profiles.py *)

(** The seven arrays of the returned list, in order.  [None] stands for the
    [np.nan] that marks the first row of three of them. *)
Record profiles : Type := {
  distances : Np.ndarray;
  velocity : Np.ndarray;
  acceleration_profile : list (option R);
  battery_profile : Np.ndarray;
  energy_consumption_profile : list (option R);
  energy_gain_profile : list (option R);
  cumulative_time : Np.ndarray
}.

Definition extract_profiles (fuel : nat)
  (velocity_profile segment_array slope_array lattitude_array longitude_array : Np.ndarray)
  : outcome profiles :=
  let start_speeds := Np.but_last velocity_profile in
  let stop_speeds := Np.from_1 velocity_profile in
  s <- Np.add start_speeds stop_speeds ;;
  let avg_speed := map (fun x => x / 2) s in
  dt <- calculate_dt start_speeds stop_speeds segment_array ;;
  d <- Np.sub stop_speeds start_speeds ;;
  acceleration <- Np.div d dt ;;
  '(P, _) <- calculate_power fuel avg_speed acceleration slope_array ;;
  let SolP := calculate_incident_solarpower (Np.cumsum dt) lattitude_array longitude_array in
  pd <- Np.mul P dt ;;
  let energy_consumption := map (fun x => x / 3600) pd in
  sd <- Np.mul SolP dt ;;
  let energy_gain := map (fun x => x / 3600) sd in
  net_energy_profile <- Np.sub (Np.cumsum energy_consumption) (Np.cumsum energy_gain) ;;
  let battery := map (fun x => InitialBatteryCapacity cfg - x) net_energy_profile in
  let battery := InitialBatteryCapacity cfg :: battery in
  let battery := map (fun x => x * 100 / BatteryCapacity cfg) battery in
  Returns {|
    distances := 0 :: Np.cumsum segment_array;
    velocity := velocity_profile;
    acceleration_profile := None :: map Some acceleration;
    battery_profile := battery;
    energy_consumption_profile := None :: map Some energy_consumption;
    energy_gain_profile := None :: map Some energy_gain;
    cumulative_time := 0 :: Np.cumsum dt
  |}.

End Car.


(** * Quantities the specification talks about *)

(** The segments of a velocity profile: each pair of adjacent nodes. *)
Definition segments (v : Np.ndarray) : list (R * R) :=
  combine (Np.but_last v) (Np.from_1 v).

(** Per-segment average speed, elapsed time and acceleration as the
    specification states them. *)
Definition segment_avg_speed (v : Np.ndarray) : Np.ndarray :=
  map (fun p => (fst p + snd p) / 2) (segments v).

Definition segment_dt (v dx : Np.ndarray) : Np.ndarray :=
  Np.zip_with (fun p x => 2 * x / (fst p + snd p + EPSILON)) (segments v) dx.

Definition segment_acceleration (v dt : Np.ndarray) : Np.ndarray :=
  Np.zip_with (fun p t => (snd p - fst p) / t) (segments v) dt.

(** [InitialBatteryCapacity - cumsum((net_power - solar_power) * dt) / 3600] *)
Definition battery_trajectory (cfg : Config) (P SolP dt : Np.ndarray) : Np.ndarray :=
  map (fun e => InitialBatteryCapacity cfg - e / 3600)
      (Np.cumsum (Np.zip_with Rmult (Np.zip_with Rminus P SolP) dt)).

(** [m] is the minimum (maximum) of the entries of [a]. *)
Definition least (m : R) (a : Np.ndarray) : Prop :=
  In m a /\ Forall (fun x => m <= x) a.

Definition greatest (m : R) (a : Np.ndarray) : Prop :=
  In m a /\ Forall (fun x => x <= m) a.


(** Two adjacent nodes of the profile are both zero. *)
Definition adjacent_zeros (v : Np.ndarray) : Prop :=
  Exists (fun p => fst p = 0 /\ snd p = 0) (segments v).

(** Every node lies between its pair of bounds. *)
Definition within_bounds (bounds : list (R * R)) (v : Np.ndarray) : Prop :=
  Forall2 (fun b x => fst b <= x <= snd b) bounds v.

(** The acceleration the motor output can deliver on a segment, and the
    statement that the commanded acceleration does not exceed it. *)
Definition deliverable (cfg : Config) (PO avg_speed : R) : R :=
  Rmax 0 PO / (Mass cfg * avg_speed).

Definition acceleration_feasible (cfg : Config) (l : constraint_locals) : Prop :=
  forall i, (i < length (c_acceleration l))%nat ->
    nth i (c_acceleration l) 0
    <= deliverable cfg (nth i (c_PO l) 0) (nth i (c_avg_speed l) 0).

(** * The winding-temperature iteration with the constants of [config.py] *)

Definition magB (T : R) : R := 1.6716 - 0.0006 * (295 + T).
Definition resist (T : R) : R := 0.00022425 * T - 0.00820525.

(** The temperature one pass computes from [T]. *)
Definition next_Tw (tou s2 T : R) : R := w_Tw (winding_pass config tou s2 T).

(** An element whose torque, squared speed and temperature are in the
    operating range, and whose next temperature step is below the tolerance
    or at most [b]. *)
Definition settles (b tou s2 T : R) : Prop :=
  0 <= tou <= 22 /\ 0 <= s2 <= 1225 /\ 295 <= T <= 330 /\
  (Rabs (next_Tw tou s2 T - T) < 0.001 \/ Rabs (next_Tw tou s2 T - T) <= b).

Inductive all_settle (b : R) : Np.ndarray -> Np.ndarray -> Np.ndarray -> Prop :=
| all_settle_nil : all_settle b [] [] []
| all_settle_cons t s T tou s2 Tw :
    settles b t s T -> all_settle b tou s2 Tw ->
    all_settle b (t :: tou) (s :: s2) (T :: Tw).

(** Losses of index-aligned elements: non-negative, and together at most
    what heats the winding to the top of the range. *)
Definition losses_ok (Pc Pe : Np.ndarray) : Prop :=
  Forall2 (fun pc pe => 0 <= pc /\ 0 <= pe /\ pc + pe <= 77) Pc Pe.

(** The three arrays of one pass of [winding_loop], by name. *)
Definition pass_of (cfg : Config) (tou speed2 Tw_i : Np.ndarray) : list winding :=
  Np.zip_with (fun ts t => winding_pass cfg (fst ts) (snd ts) t) (combine tou speed2) Tw_i.

Definition cond_of (cfg : Config) (tou speed2 Tw_i : Np.ndarray) : list bool :=
  Np.zip_with converged (pass_of cfg tou speed2 Tw_i) Tw_i.

Definition where_of (cfg : Config) (tou speed2 Tw_i : Np.ndarray) : Np.ndarray :=
  Np.zip_with (fun (ct : bool * R) w => if fst ct then snd ct else w_Tw w)
    (combine (cond_of cfg tou speed2 Tw_i) Tw_i) (pass_of cfg tou speed2 Tw_i).

(** The torque and squared-speed arrays [calculate_power] builds. *)
Definition tou_of (cfg : Config) (speed : Np.ndarray) : Np.ndarray :=
  map (fun d => _frictional_tou cfg + d)
      (map (fun v2 => _drag_coeff_wR2 cfg * v2) (map (fun v => v ^ 2) speed)).

Definition speed2_of (speed : Np.ndarray) : Np.ndarray := map (fun v => v ^ 2) speed.

(** The local variables of [battery_acc_constraint_func] written with the
    quantities above, for the net and output power [P], [PO] that
    [calculate_power] returned. *)
Definition locals_of (cfg : Config) (v seg lat lon P PO : Np.ndarray) : constraint_locals :=
  let dt := segment_dt v seg in
  let SolP := calculate_incident_solarpower cfg (Np.cumsum dt) lat lon in
  let energy :=
    map (fun x => x / 3600) (Np.cumsum (Np.zip_with Rmult (Np.zip_with Rminus P SolP) dt)) in
  {| c_avg_speed := segment_avg_speed v;
     c_dt := dt;
     c_acceleration := segment_acceleration v dt;
     c_P := P;
     c_PO := PO;
     c_SolP := SolP;
     c_energy_consumption := energy;
     c_battery_profile :=
       map (fun x => InitialBatteryCapacity cfg - x - SafeBatteryLevel cfg) energy |}.

(** [PO.clip(0) / (Mass * avg_speed) - acceleration], entry by entry. *)
Definition margin_of (cfg : Config) (l : constraint_locals) : Np.ndarray :=
  Np.zip_with Rminus
    (Np.zip_with Rdiv (Np.clip0 (c_PO l)) (map (fun a => Mass cfg * a) (c_avg_speed l)))
    (c_acceleration l).

(** Output power and clipped net power of one element, for losses [pc] and
    [pe] of the last pass. *)
Definition output_power_of (cfg : Config) (v : R) : R :=
  (_frictional_tou cfg + _drag_coeff_wR2 cfg * v ^ 2) * v / R_Out cfg.

Definition net_power_of (cfg : Config) (v a s pc pe : R) : R :=
  Rmax 0 (output_power_of cfg v + v ^ 2 * _windage_losses_coeff_wR2 cfg + pc + pe
          + (Mass cfg * a + _slope_coeff cfg * sin (Np.radians s)) * v).


Definition trajectory_of (cfg : Config) (l : constraint_locals) : Np.ndarray :=
  map (fun e => InitialBatteryCapacity cfg - e) (c_energy_consumption l).

(** [config.py] with another initial battery charge. *)
Definition set_initial (cfg : Config) (x : R) : Config := {|
  RaceStartTime := RaceStartTime cfg;
  RaceEndTime := RaceEndTime cfg;
  BatteryCapacity := BatteryCapacity cfg;
  DeepDischargeCap := DeepDischargeCap cfg;
  InitialBatteryCapacity := x;
  R_Out := R_Out cfg;
  Mass := Mass cfg;
  ZeroSpeedCrr := ZeroSpeedCrr cfg;
  CDA := CDA cfg;
  PanelArea := PanelArea cfg;
  PanelEfficiency := PanelEfficiency cfg;
  BusVoltage := BusVoltage cfg;
  AirDensity := AirDensity cfg;
  GravityAcc := GravityAcc cfg;
  Ta := Ta cfg;
  MaxVelocity := MaxVelocity cfg;
  MaxCurrent := MaxCurrent cfg
|}.

(** Case analysis on the calls a returning function made. *)
Ltac bind_inv H :=
  repeat match type of H with
         | bind ?m _ = Returns _ =>
             let E := fresh "E" in
             destruct m eqn:E; cbn [bind] in H; try discriminate H
         | (let '(_, _) := ?p in _) = Returns _ => destruct p
         end.


(** * model.py: what [main] hands to the optimiser *)

(** [np.ones(N_V) * InitialGuessVelocity] with [N_V = len(route_df) + 1];
    the guess constant comes from a module that is not part of the sources
    and is a parameter here. *)
Definition initial_profile (route_len : nat) (InitialGuessVelocity : R) : Np.ndarray :=
  map (fun one => one * InitialGuessVelocity) (repeat 1 (route_len + 1)).

(** [bounds = get_bounds(N_V)] *)
Definition main_bounds (cfg : Config) (route_len : nat) : list (R * R) :=
  get_bounds cfg (Z.of_nat route_len + 1).

(** * accurate_solarprofile.py *)

Module Accurate.

(** What the code reads of a [datetime]: the day of the year of its
    [timetuple()], the hour and the minute. *)
Record datetime : Type := { tm_yday : Z; hour : Z; minute : Z }.

Definition G_s : R := 1366.
Definition G_s_prime : R := 0.7 * G_s.

Definition day_of_year (date : datetime) : Z := tm_yday date.

Definition calculate_B (N : Z) : R := (IZR N - 1) * 360 / 365.

Definition equation_of_time (B : R) : R :=
  229.2 * (0.00018865 * cos (Np.radians B) - 0.0032077 * sin (Np.radians B)
           + 0.041016 * cos (Np.radians (2 * B)) - 0.048093 * sin (Np.radians (2 * B))).

Definition solar_local_time (standard_time : R) (longitude standard_meridian : Np.ndarray)
  (E : R) : outcome Np.ndarray :=
  d <- Np.sub standard_meridian longitude ;;
  Returns (map (fun x => standard_time + (4 * x + E) / 60) d).

Definition hour_angle (T_s : Np.ndarray) : Np.ndarray :=
  map (fun t => 15 * (t - 12)) T_s.

Definition sun_declination_angle (N : Z) : R :=
  23.45 * sin (Np.radians (360 / 365 * (284 + IZR N))).

Definition solar_irradiance (G_s_prime : R) (latitude : Np.ndarray) (declination : R)
  (hour_angle : Np.ndarray) : outcome Np.ndarray :=
  let latitude_rad := map Np.radians latitude in
  let declination_rad := Np.radians declination in
  let hour_angle_rad := map Np.radians hour_angle in
  c <- Np.mul (map (fun x => x * cos declination_rad) (map cos latitude_rad))
              (map cos hour_angle_rad) ;;
  s <- Np.add c (map (fun x => x * sin declination_rad) (map sin latitude_rad)) ;;
  Returns (map (fun x => G_s_prime * x) s).

(** NumPy's [int] is [int64]: a 64-bit signed integer whose arithmetic
    wraps around. *)
Definition INT64_MIN : Z := (- 2 ^ 63)%Z.
Definition INT64_MAX : Z := (2 ^ 63 - 1)%Z.

Definition wrap_int64 (z : Z) : Z := ((z + 2 ^ 63) mod 2 ^ 64 - 2 ^ 63)%Z.

(** Rounding towards zero. *)
Definition trunc (x : R) : Z :=
  if Rle_dec 0 x then Zfloor x else Zceil x.

(** [x.astype(int)] on a finite float: rounding towards zero when the result
    fits [int64].  The conversion of a float outside that range is not
    defined by C; the x86-64 conversion instruction gives [INT64_MIN]. *)
Definition astype_int (x : R) : Z :=
  let z := trunc x in
  if ((INT64_MIN <=? z) && (z <=? INT64_MAX))%Z then z else INT64_MIN.

Section Solar.

Variable cfg : Config.

Definition _power_coeff : R := PanelArea cfg * PanelEfficiency cfg.
Definition DT : R := RaceEndTime cfg - RaceStartTime cfg.

Definition _calc_solar_irradiance (time : R) : R :=
  1073.099 * exp (-0.5 * ((time - 51908.735) / 11484.950) ^ 2).

(** [standard_meridian = 15 * (longitude_array / 15).astype(int)]: the
    product is taken in [int64] and wraps around; the subtraction that uses
    it converts it back to a float. *)
Definition standard_meridian_of (longitude_array : Np.ndarray) : Np.ndarray :=
  map (fun z => IZR (wrap_int64 (15 * z)))
      (map astype_int (map (fun x => x / 15) longitude_array)).

(** The two readings of [datetime.now()] are arguments. *)
Definition calculate_incident_solarpower (date time : datetime)
  (globaltime latitude_array longitude_array : Np.ndarray) : outcome Np.ndarray :=
  let N := day_of_year date in
  let B := calculate_B N in
  let standard_meridian := standard_meridian_of longitude_array in
  let E := equation_of_time B in
  let standard_time := IZR (hour time) + IZR (minute time) / 60 in
  T_s <- solar_local_time standard_time longitude_array standard_meridian E ;;
  let omega := hour_angle T_s in
  let delta := sun_declination_angle N in
  G_b <- solar_irradiance G_s_prime latitude_array delta omega ;;
  let gt := map (fun t => Np.remainder t DT) globaltime in
  let intensity := map (fun g => _calc_solar_irradiance (RaceStartTime cfg + g)) gt in
  Returns (map (fun x => x * _power_coeff) intensity).

End Solar.

End Accurate.

(** The net and output power arrays [calculate_power] builds on
    index-aligned arrays from the losses [Pc], [Pe] of the last pass. *)
Definition net_power_array (cfg : Config) (speed acceleration slope Pc Pe : Np.ndarray)
  : Np.ndarray :=
  Np.clip0
    (Np.zip_with Rplus
       (Np.zip_with Rplus
          (Np.zip_with Rplus
             (Np.zip_with Rplus
                (map (fun x => x / R_Out cfg) (Np.zip_with Rmult (tou_of cfg speed) speed))
                (map (fun v2 => v2 * _windage_losses_coeff_wR2 cfg) (speed2_of speed)))
             Pc)
          Pe)
       (Np.zip_with Rmult
          (Np.zip_with Rplus (map (fun a => Mass cfg * a) acceleration)
             (map (fun s => _slope_coeff cfg * sin (Np.radians s)) slope))
          speed)).

Definition output_power_array (cfg : Config) (speed : Np.ndarray) : Np.ndarray :=
  map (fun x => x / R_Out cfg) (Np.zip_with Rmult (tou_of cfg speed) speed).

(** The mechanical part of the net power of one element: output power,
    windage, and the power of acceleration and slope. *)
Definition mechanical_power_of (cfg : Config) (v a s : R) : R :=
  output_power_of cfg v + v ^ 2 * _windage_losses_coeff_wR2 cfg
  + (Mass cfg * a + _slope_coeff cfg * sin (Np.radians s)) * v.

(** The table [extract_profiles] returns on index-aligned arrays, for the
    net power [P] that [calculate_power] returned. *)
Definition report_of (cfg : Config) (v seg lat lon P : Np.ndarray) : profiles :=
  let dt := segment_dt v seg in
  let SolP := calculate_incident_solarpower cfg (Np.cumsum dt) lat lon in
  let energy_consumption := map (fun x => x / 3600) (Np.zip_with Rmult P dt) in
  let energy_gain := map (fun x => x / 3600) (Np.zip_with Rmult SolP dt) in
  let net_energy_profile :=
    Np.zip_with Rminus (Np.cumsum energy_consumption) (Np.cumsum energy_gain) in
  {| distances := 0 :: Np.cumsum seg;
     velocity := v;
     acceleration_profile := None :: map Some (segment_acceleration v dt);
     battery_profile :=
       map (fun x => x * 100 / BatteryCapacity cfg)
           (InitialBatteryCapacity cfg
            :: map (fun x => InitialBatteryCapacity cfg - x) net_energy_profile);
     energy_consumption_profile := None :: map Some energy_consumption;
     energy_gain_profile := None :: map Some energy_gain;
     cumulative_time := 0 :: Np.cumsum dt |}.
(** * Properties *)

(** ** Arrays *)

Section ArrayFacts.

Context {A B C : Type}.

Lemma zip_with_length (f : A -> B -> C) xs ys :
  length xs = length ys -> length (Np.zip_with f xs ys) = length xs.
Proof.
  revert ys; induction xs as [|x xs IH]; intros [|y ys] H; simpl in *; try discriminate; auto.
Qed.

Lemma zip_with_nth (f : A -> B -> C) xs ys i da db dc :
  length xs = length ys -> (i < length xs)%nat ->
  nth i (Np.zip_with f xs ys) dc = f (nth i xs da) (nth i ys db).
Proof.
  revert ys i; induction xs as [|x xs IH]; intros [|y ys] i H Hi; simpl in *;
    try discriminate; try lia.
  destruct i; auto. apply IH; lia.
Qed.

End ArrayFacts.

Lemma broadcast_same f xs ys :
  length xs = length ys -> Np.broadcast f xs ys = Returns (Np.zip_with f xs ys).
Proof.
  intros H. unfold Np.broadcast. rewrite H, Nat.eqb_refl. reflexivity.
Qed.

Lemma but_last_length (v : Np.ndarray) : length (Np.but_last v) = pred (length v).
Proof.
  unfold Np.but_last. induction v as [|x [|y v] IH]; simpl in *; auto.
Qed.

Lemma from_1_length (v : Np.ndarray) : length (Np.from_1 v) = pred (length v).
Proof. destruct v; reflexivity. Qed.

Lemma slices_same_length (v : Np.ndarray) :
  length (Np.but_last v) = length (Np.from_1 v).
Proof. now rewrite but_last_length, from_1_length. Qed.

Lemma EPSILON_pos : 0 < EPSILON.
Proof. unfold EPSILON. apply Rinv_0_lt_compat. lra. Qed.

(** On arrays of one length [calculate_dt] returns, element by element. *)
Lemma calculate_dt_same start stop dx :
  length start = length stop -> length stop = length dx ->
  calculate_dt start stop dx =
  Returns (Np.zip_with Rdiv (map (fun d => 2 * d) dx)
             (map (fun v => v + EPSILON) (Np.zip_with Rplus start stop))).
Proof.
  intros H1 H2. unfold calculate_dt, Np.add, Np.div.
  rewrite broadcast_same by assumption. simpl.
  rewrite broadcast_same; [reflexivity|].
  rewrite !length_map, zip_with_length; congruence.
Qed.

Lemma calculate_dt_nth start stop dx i :
  length start = length stop -> length stop = length dx -> (i < length dx)%nat ->
  nth i (Np.zip_with Rdiv (map (fun d => 2 * d) dx)
           (map (fun v => v + EPSILON) (Np.zip_with Rplus start stop))) 0
  = 2 * nth i dx 0 / (nth i start 0 + nth i stop 0 + EPSILON).
Proof.
  intros H1 H2 Hi.
  rewrite (zip_with_nth _ _ _ _ (2 * 0) (0 + EPSILON));
    [| rewrite !length_map, zip_with_length; congruence | rewrite length_map; lia].
  rewrite (map_nth (fun d => 2 * d)), (map_nth (fun v => v + EPSILON)).
  rewrite (zip_with_nth _ _ _ _ 0 0); [reflexivity | assumption | lia].
Qed.

(** C8.  On index-aligned arrays [calculate_dt] returns, for every segment,
    exactly [2 * dx / (start_speed + stop_speed + EPSILON)] with
    [EPSILON = 10^-8].  When both endpoint speeds are zero the divisor is
    [EPSILON], not zero, and a zero [dx] then gives a zero time; the time is
    strictly positive whenever [dx > 0] and both speeds are non-negative with
    one of them positive. *)
Theorem calculate_dt_spec start stop dx :
  length start = length stop -> length stop = length dx ->
  EPSILON = 1 / 100000000 /\
  exists dt, calculate_dt start stop dx = Returns dt /\ length dt = length dx /\
    forall i, (i < length dx)%nat ->
      let s := nth i start 0 in
      let t := nth i stop 0 in
      let x := nth i dx 0 in
      nth i dt 0 = 2 * x / (s + t + EPSILON) /\
      (s = 0 -> t = 0 -> s + t + EPSILON <> 0 /\ (x = 0 -> nth i dt 0 = 0)) /\
      (0 < x -> 0 <= s -> 0 <= t -> 0 < s \/ 0 < t -> 0 < nth i dt 0).
Proof.
  intros H1 H2. split; [unfold EPSILON; lra|].
  eexists. split; [apply calculate_dt_same; assumption|].
  split; [rewrite zip_with_length; rewrite !length_map; [reflexivity|];
          rewrite zip_with_length; congruence|].
  intros i Hi s t x. rewrite calculate_dt_nth by assumption.
  fold s t x. pose proof EPSILON_pos as He.
  split; [reflexivity|]. split.
  - intros -> ->. split; [lra|]. intros ->. unfold Rdiv. ring.
  - intros Hx Hs Ht Hst. apply Rdiv_lt_0_compat; lra.
Qed.

Lemma calculate_dt_spec_witness :
  exists dt, calculate_dt [0; 10] [10; 0] [1000; 1000] = Returns dt /\
             0 < nth 0 dt 0 /\ 0 < nth 1 dt 0.
Proof.
  destruct (calculate_dt_spec [0; 10] [10; 0] [1000; 1000] eq_refl eq_refl)
    as [_ [dt [Hdt [_ H]]]].
  exists dt. split; [exact Hdt|]. split.
  - apply (H 0%nat); simpl; lra || lia.
  - apply (H 1%nat); simpl; lra || lia.
Defined.

(** ** The winding-temperature loop *)

Lemma winding_loop_S cfg fuel tou speed2 Tw_i :
  winding_loop cfg (S fuel) tou speed2 Tw_i =
  if forallb (fun c => c) (cond_of cfg tou speed2 Tw_i)
  then Returns (map w_Pc (pass_of cfg tou speed2 Tw_i),
                map w_Pe (pass_of cfg tou speed2 Tw_i))
  else winding_loop cfg fuel tou speed2 (where_of cfg tou speed2 Tw_i).
Proof. reflexivity. Qed.

(** The loop raises nothing: it returns or goes on. *)
Lemma winding_loop_no_raise cfg fuel tou speed2 Tw_i e :
  winding_loop cfg fuel tou speed2 Tw_i <> Raises e.
Proof.
  revert Tw_i; induction fuel as [|fuel IH]; intros Tw_i; [discriminate|].
  rewrite winding_loop_S. destruct (forallb _ _); [discriminate | apply IH].
Qed.

(** A larger budget does not change what a finished loop returned. *)
Lemma winding_loop_more_fuel cfg fuel fuel' tou speed2 Tw_i r :
  (fuel <= fuel')%nat ->
  winding_loop cfg fuel tou speed2 Tw_i = Returns r ->
  winding_loop cfg fuel' tou speed2 Tw_i = Returns r.
Proof.
  revert fuel' Tw_i; induction fuel as [|fuel IH]; intros fuel' Tw_i Hle H;
    [discriminate|].
  destruct fuel' as [|fuel']; [lia|].
  rewrite winding_loop_S in *. destruct (forallb _ _); [assumption|].
  apply IH; [lia | assumption].
Qed.

Lemma Rabs_le_bounds a b : Rabs a <= b -> - b <= a <= b.
Proof. unfold Rabs. destruct (Rcase_abs a); lra. Qed.

Lemma ltb_true a b : Np.ltb a b = true <-> a < b.
Proof. unfold Np.ltb. destruct (Rlt_dec a b); split; intros; try discriminate; tauto. Qed.

Lemma ltb_false a b : Np.ltb a b = false <-> b <= a.
Proof.
  unfold Np.ltb. destruct (Rlt_dec a b); split; intros; try discriminate; auto; lra.
Qed.

Lemma magB_range T : 295 <= T <= 330 -> 1.2966 <= magB T <= 1.3176.
Proof. unfold magB. lra. Qed.

Lemma resist_range T : 295 <= T <= 330 -> 0.0579 <= resist T <= 0.0658.
Proof. unfold resist. lra. Qed.

Lemma pass_Pc tou s2 T :
  w_Pc (winding_pass config tou s2 T) = 3 * (0.561 * magB T * tou) ^ 2 * resist T.
Proof. reflexivity. Qed.

Lemma pass_Pe tou s2 T :
  w_Pe (winding_pass config tou s2 T) =
  (9.602 * (/ 10 ^ 6) * ((magB T / 0.2785) ^ 2) / resist T) * s2.
Proof. reflexivity. Qed.

Lemma pass_Tw tou s2 T :
  next_Tw tou s2 T =
  0.455 * (w_Pc (winding_pass config tou s2 T) + w_Pe (winding_pass config tou s2 T)) + 295.
Proof. reflexivity. Qed.

Lemma next_Tw_eq tou s2 T : 295 <= T <= 330 ->
  next_Tw tou s2 T =
  295 + 0.455 * (3 * 0.561 ^ 2 * tou ^ 2 * (magB T ^ 2 * resist T)
                 + 9.602 * / 10 ^ 6 / 0.2785 ^ 2 * s2 * (magB T ^ 2 / resist T)).
Proof.
  intros HT. pose proof (resist_range T HT). rewrite pass_Tw, pass_Pc, pass_Pe.
  field. lra.
Qed.

Lemma copper_lipschitz x y : 295 <= x <= 330 -> 295 <= y <= 330 ->
  Rabs (magB x ^ 2 * resist x - magB y ^ 2 * resist y) <= 0.0003 * Rabs (x - y).
Proof.
  intros Hx Hy.
  pose proof (magB_range x Hx) as Bx. pose proof (magB_range y Hy) as By.
  pose proof (resist_range x Hx) as Rx. pose proof (resist_range y Hy) as Ry.
  assert (E : magB x ^ 2 * resist x - magB y ^ 2 * resist y =
              (x - y) * (0.00022425 * magB y ^ 2 - 0.0006 * (magB x + magB y) * resist x)).
  { unfold magB, resist. ring. }
  rewrite E, Rabs_mult, Rmult_comm. apply Rmult_le_compat_r; [apply Rabs_pos|].
  apply Rabs_le. split; nra.
Qed.

Lemma eddy_lipschitz x y : 295 <= x <= 330 -> 295 <= y <= 330 ->
  Rabs (magB x ^ 2 / resist x - magB y ^ 2 / resist y) <= 0.15 * Rabs (x - y).
Proof.
  intros Hx Hy.
  pose proof (magB_range x Hx) as Bx. pose proof (magB_range y Hy) as By.
  pose proof (resist_range x Hx) as Rx. pose proof (resist_range y Hy) as Ry.
  assert (E : magB x ^ 2 / resist x - magB y ^ 2 / resist y =
              (x - y) * ((- (0.0006 * (magB x + magB y) * resist y)
                          - 0.00022425 * magB y ^ 2) / (resist x * resist y))).
  { unfold magB, resist in *. field. lra. }
  rewrite E, Rabs_mult, Rmult_comm. apply Rmult_le_compat_r; [apply Rabs_pos|].
  assert (Hd : 0.003352 <= resist x * resist y) by nra.
  apply Rabs_le. split.
  - apply Rmult_le_reg_r with (resist x * resist y); [lra|].
    unfold Rdiv. rewrite Rmult_assoc, Rinv_l by lra. nra.
  - apply Rmult_le_reg_r with (resist x * resist y); [lra|].
    unfold Rdiv. rewrite Rmult_assoc, Rinv_l by lra. nra.
Qed.

Lemma losses_nonneg tou s2 T :
  0 <= s2 -> 295 <= T <= 330 ->
  0 <= w_Pc (winding_pass config tou s2 T) /\ 0 <= w_Pe (winding_pass config tou s2 T).
Proof.
  intros Hs HT. pose proof (resist_range T HT) as RT.
  rewrite pass_Pc, pass_Pe. split.
  - apply Rmult_le_pos; [|lra]. apply Rmult_le_pos; [lra | apply pow2_ge_0].
  - apply Rmult_le_pos; [|assumption].
    apply Rmult_le_pos; [| left; apply Rinv_0_lt_compat; lra].
    apply Rmult_le_pos; [| apply pow2_ge_0].
    apply Rmult_le_pos; [lra | left; apply Rinv_0_lt_compat; lra].
Qed.

Lemma next_Tw_range tou s2 T :
  0 <= tou <= 22 -> 0 <= s2 <= 1225 -> 295 <= T <= 330 ->
  295 <= next_Tw tou s2 T <= 330.
Proof.
  intros Ht Hs HT. rewrite next_Tw_eq by assumption.
  pose proof (magB_range T HT) as BT. pose proof (resist_range T HT) as RT.
  assert (H1 : 0 <= magB T ^ 2 * resist T <= 0.1143) by nra.
  assert (H2 : 0 <= magB T ^ 2 / resist T <= 30).
  { split.
    - apply Rmult_le_pos; [nra | left; apply Rinv_0_lt_compat; lra].
    - apply Rmult_le_reg_r with (resist T); [lra|].
      unfold Rdiv. rewrite Rmult_assoc, Rinv_l by lra. nra. }
  assert (H3 : 0 <= tou ^ 2 <= 484) by nra.
  split; nra.
Qed.

Lemma next_Tw_contract tou s2 x y :
  0 <= tou <= 22 -> 0 <= s2 <= 1225 -> 295 <= x <= 330 -> 295 <= y <= 330 ->
  Rabs (next_Tw tou s2 x - next_Tw tou s2 y) <= Rabs (x - y) / 8.
Proof.
  intros Ht Hs Hx Hy. rewrite !next_Tw_eq by assumption.
  pose proof (copper_lipschitz x y Hx Hy) as Hh.
  pose proof (eddy_lipschitz x y Hx Hy) as Hg.
  assert (H3 : 0 <= tou ^ 2 <= 484) by nra.
  set (h := magB x ^ 2 * resist x - magB y ^ 2 * resist y) in *.
  set (g := magB x ^ 2 / resist x - magB y ^ 2 / resist y) in *.
  set (d := Rabs (x - y)) in *.
  assert (Hd : 0 <= d) by apply Rabs_pos.
  replace (_ - _) with (0.455 * (3 * 0.561 ^ 2 * tou ^ 2 * h
                        + 9.602 * / 10 ^ 6 / 0.2785 ^ 2 * s2 * g))
    by (unfold h, g; ring).
  apply Rabs_le_bounds in Hh. apply Rabs_le_bounds in Hg.
  assert (Hc : 0 <= 9.602 * / 10 ^ 6 / 0.2785 ^ 2 * s2 <= 0.152) by lra.
  set (c := 9.602 * / 10 ^ 6 / 0.2785 ^ 2 * s2) in *.
  apply Rabs_le. split; nra.
Qed.


Lemma settles_step b t s T :
  settles b t s T ->
  settles (b / 8) t s
    (if converged (winding_pass config t s T) T then T else next_Tw t s T).
Proof.
  intros (Ht & Hs & HT & Hb). unfold converged. fold (next_Tw t s T).
  destruct (Np.ltb _ _) eqn:E.
  - apply ltb_true in E. unfold settles. tauto.
  - apply ltb_false in E.
    pose proof (next_Tw_range t s T Ht Hs HT) as HT'.
    repeat split; try tauto. right.
    pose proof (next_Tw_contract t s (next_Tw t s T) T Ht Hs HT' HT).
    destruct Hb; lra.
Qed.

Lemma all_settle_step b tou s2 Tw :
  all_settle b tou s2 Tw -> all_settle (b / 8) tou s2 (where_of config tou s2 Tw).
Proof.
  induction 1 as [|t s T tou s2 Tw H _ IH]; [constructor|].
  unfold where_of, cond_of, pass_of in *. simpl. constructor; [|exact IH].
  apply settles_step, H.
Qed.

Lemma all_settle_done b tou s2 Tw :
  b < 0.001 -> all_settle b tou s2 Tw ->
  forallb (fun c => c) (cond_of config tou s2 Tw) = true.
Proof.
  intros Hb. induction 1 as [|t s T tou s2 Tw H _ IH]; [reflexivity|].
  unfold cond_of, pass_of in *. simpl. rewrite IH, andb_true_r.
  unfold converged. apply ltb_true. fold (next_Tw t s T).
  destruct H as (_ & _ & _ & [H|H]); lra.
Qed.

Lemma all_settle_losses b tou s2 Tw :
  all_settle b tou s2 Tw ->
  losses_ok (map w_Pc (pass_of config tou s2 Tw)) (map w_Pe (pass_of config tou s2 Tw))
  /\ length (pass_of config tou s2 Tw) = length tou.
Proof.
  induction 1 as [|t s T tou s2 Tw H _ [IH1 IH2]]; [split; [constructor | reflexivity]|].
  unfold losses_ok, pass_of in *. cbn [Np.zip_with combine map fst snd length].
  split; [|now rewrite IH2].
  constructor; [|exact IH1].
  destruct H as (Ht & Hs & HT & _).
  destruct (losses_nonneg t s T (proj1 Hs) HT) as [Hc He].
  pose proof (next_Tw_range t s T Ht Hs HT) as Hr. rewrite pass_Tw in Hr.
  repeat split; lra.
Qed.

(** Once every element settles with step bound [b], the loop returns within
    [n + 1] passes, where [b / 8 ^ n] is below the tolerance. *)
Lemma winding_loop_settles n : forall b tou s2 Tw fuel,
  all_settle b tou s2 Tw -> b / 8 ^ n < 0.001 -> (n < fuel)%nat ->
  exists Pc Pe, winding_loop config fuel tou s2 Tw = Returns (Pc, Pe)
                /\ losses_ok Pc Pe /\ length Pc = length tou /\ length Pe = length tou.
Proof.
  induction n as [|n IH]; intros b tou s2 Tw fuel Hall Hb Hfuel;
    (destruct fuel as [|fuel]; [lia|]); rewrite winding_loop_S.
  - rewrite (all_settle_done b) by (assumption || (simpl in Hb; lra)).
    destruct (all_settle_losses _ _ _ _ Hall) as [Hl Hlen].
    do 2 eexists. split; [reflexivity|]. rewrite !length_map. auto.
  - destruct (forallb _ _).
    + destruct (all_settle_losses _ _ _ _ Hall) as [Hl Hlen].
      do 2 eexists. split; [reflexivity|]. rewrite !length_map. auto.
    + apply (IH (b / 8)); [apply all_settle_step, Hall | | lia].
      simpl in Hb. unfold Rdiv in *. rewrite Rinv_mult in Hb. lra.
Qed.

Lemma frictional_tou_value : _frictional_tou config = 0.2785 * 260 * 9.81 * 0.0045.
Proof. reflexivity. Qed.

Lemma drag_coeff_wR2_value : _drag_coeff_wR2 config = 0.5 * 0.092 * 1.192 * 0.2785.
Proof. unfold _drag_coeff_wR2, _drag_coeff. simpl. lra. Qed.

Lemma windage_coeff_bounds : 0 <= _windage_losses_coeff_wR2 config <= 0.0022.
Proof. unfold _windage_losses_coeff_wR2. simpl. lra. Qed.

Lemma tou_range v :
  0 <= v <= 35 ->
  3.19 <= _frictional_tou config + _drag_coeff_wR2 config * v ^ 2 <= 22.
Proof.
  intros Hv. rewrite frictional_tou_value, drag_coeff_wR2_value.
  assert (0 <= v ^ 2 <= 1225) by nra. lra.
Qed.

Lemma all_settle_start speed :
  Forall (fun v => 0 <= v <= 35) speed ->
  all_settle 35 (tou_of config speed) (speed2_of speed) (map (fun _ => Ta config) speed).
Proof.
  induction 1 as [|v speed Hv _ IH]; [constructor|].
  unfold tou_of, speed2_of in *. cbn [map]. constructor; [|exact IH].
  change (Ta config) with 295.
  pose proof (tou_range v Hv) as Ht.
  assert (Hs : 0 <= v ^ 2 <= 1225) by nra.
  assert (HT : 295 <= 295 <= 330) by lra.
  assert (Ht' : 0 <= _frictional_tou config + _drag_coeff_wR2 config * v ^ 2 <= 22) by lra.
  repeat split; try lra. right.
  pose proof (next_Tw_range _ _ 295 Ht' Hs HT) as Hr.
  apply Rabs_le. lra.
Qed.

(** With the constants of [config.py] and speeds between 0 and
    [MaxVelocity], seven passes are enough. *)
Lemma winding_loop_returns speed fuel :
  Forall (fun v => 0 <= v <= 35) speed -> (7 <= fuel)%nat ->
  exists Pc Pe,
    winding_loop config fuel (tou_of config speed) (speed2_of speed)
                 (map (fun _ => Ta config) speed) = Returns (Pc, Pe)
    /\ losses_ok Pc Pe /\ length Pc = length speed /\ length Pe = length speed.
Proof.
  intros Hs Hf.
  destruct (winding_loop_settles 6 35 _ _ _ fuel (all_settle_start speed Hs))
    as (Pc & Pe & H & Hl & H1 & H2); [lra | lia |].
  exists Pc, Pe. unfold tou_of in *. rewrite !length_map in *. auto.
Qed.

(** ** [calculate_power] *)

Lemma calculate_power_unfold cfg fuel speed acceleration slope :
  calculate_power cfg fuel speed acceleration slope =
  ' (Pc, Pe) <- winding_loop cfg fuel (tou_of cfg speed) (speed2_of speed)
                  (map (fun _ => Ta cfg) speed) ;;
  let P_out := map (fun x => x / R_Out cfg) (Np.zip_with Rmult (tou_of cfg speed) speed) in
  let Pw := map (fun v2 => v2 * _windage_losses_coeff_wR2 cfg) (speed2_of speed) in
  f <- Np.add (map (fun a => Mass cfg * a) acceleration)
              (map (fun s => _slope_coeff cfg * sin (Np.radians s)) slope) ;;
  P_acc <- Np.mul f speed ;;
  p1 <- Np.add P_out Pw ;;
  p2 <- Np.add p1 Pc ;;
  p3 <- Np.add p2 Pe ;;
  P_net <- Np.add p3 P_acc ;;
  Returns (Np.clip0 P_net, P_out).
Proof. reflexivity. Qed.

Lemma clip0_nonneg a : Forall (fun p => 0 <= p) (Np.clip0 a).
Proof.
  unfold Np.clip0. induction a; simpl; constructor; auto. apply Rmax_l.
Qed.

(** What [calculate_power] returns on index-aligned arrays once the loop has
    returned its losses. *)
Lemma calculate_power_aligned cfg fuel speed acceleration slope Pc Pe :
  winding_loop cfg fuel (tou_of cfg speed) (speed2_of speed)
    (map (fun _ => Ta cfg) speed) = Returns (Pc, Pe) ->
  length Pc = length speed -> length Pe = length speed ->
  length acceleration = length speed -> length slope = length speed ->
  calculate_power cfg fuel speed acceleration slope =
  Returns
    (Np.clip0
       (Np.zip_with Rplus
          (Np.zip_with Rplus
             (Np.zip_with Rplus
                (Np.zip_with Rplus
                   (map (fun x => x / R_Out cfg)
                        (Np.zip_with Rmult (tou_of cfg speed) speed))
                   (map (fun v2 => v2 * _windage_losses_coeff_wR2 cfg) (speed2_of speed)))
                Pc)
             Pe)
          (Np.zip_with Rmult
             (Np.zip_with Rplus (map (fun a => Mass cfg * a) acceleration)
                (map (fun s => _slope_coeff cfg * sin (Np.radians s)) slope))
             speed)),
     map (fun x => x / R_Out cfg) (Np.zip_with Rmult (tou_of cfg speed) speed)).
Proof.
  intros Hloop HPc HPe Ha Hs. rewrite calculate_power_unfold, Hloop.
  cbn [bind]. unfold Np.add, Np.mul.
  assert (Ht : length (tou_of cfg speed) = length speed)
    by (unfold tou_of; now rewrite !length_map).
  repeat (rewrite broadcast_same;
          [cbn [bind]
          | repeat (rewrite ?length_map, ?zip_with_length; unfold speed2_of);
            congruence]).
  reflexivity.
Qed.

(** With the constants of [config.py], speeds between 0 and [MaxVelocity]
    and index-aligned arrays, [calculate_power] returns within seven
    passes. *)
Lemma calculate_power_returns fuel speed acceleration slope :
  Forall (fun v => 0 <= v <= 35) speed -> (7 <= fuel)%nat ->
  length acceleration = length speed -> length slope = length speed ->
  exists Pc Pe P PO,
    winding_loop config fuel (tou_of config speed) (speed2_of speed)
      (map (fun _ => Ta config) speed) = Returns (Pc, Pe)
    /\ losses_ok Pc Pe /\ length Pc = length speed /\ length Pe = length speed
    /\ calculate_power config fuel speed acceleration slope = Returns (P, PO).
Proof.
  intros Hv Hf Ha Hs.
  destruct (winding_loop_returns speed fuel Hv Hf) as (Pc & Pe & Hloop & Hl & H1 & H2).
  pose proof (calculate_power_aligned config fuel speed acceleration slope
                Pc Pe Hloop H1 H2 Ha Hs) as Hp.
  exists Pc, Pe. do 2 eexists. repeat split; eassumption.
Qed.

(** C7.  Every element of the net power [calculate_power] returns is
    non-negative: it is the computed net power clipped below at zero. *)
Theorem net_power_nonneg cfg fuel speed acceleration slope P PO :
  calculate_power cfg fuel speed acceleration slope = Returns (P, PO) ->
  Forall (fun p => 0 <= p) P /\ exists P_net, P = map (Rmax 0) P_net.
Proof.
  intros H. rewrite calculate_power_unfold in H. bind_inv H.
  cbv zeta in H. bind_inv H. injection H as <- <-.
  split; [apply clip0_nonneg | eexists; reflexivity].
Qed.

Lemma net_power_nonneg_witness :
  exists P PO, calculate_power config 7 [5; 5] [2; -2] [0; 1] = Returns (P, PO)
               /\ Forall (fun p => 0 <= p) P.
Proof.
  destruct (calculate_power_returns 7 [5; 5] [2; -2] [0; 1]) as (Pc & Pe & P & PO & H);
    [repeat constructor; lra | lia | reflexivity | reflexivity |].
  exists P, PO. split; [tauto|].
  apply (net_power_nonneg config 7 [5; 5] [2; -2] [0; 1] P PO). tauto.
Defined.

(** ** A speed at which the loop never ends *)

Lemma runaway_step T :
  let tou := _frictional_tou config + _drag_coeff_wR2 config * 1000 ^ 2 in
  T = 295 \/ 10000 <= T ->
  T + 1 <= next_Tw tou (1000 ^ 2) T /\ 10000 <= next_Tw tou (1000 ^ 2) T.
Proof.
  intros tou HT.
  assert (Htou : 15000 <= tou).
  { unfold tou. rewrite frictional_tou_value, drag_coeff_wR2_value. lra. }
  assert (HR : 0.05 <= resist T) by (unfold resist; destruct HT; lra).
  assert (HPe : 0 <= w_Pe (winding_pass config tou (1000 ^ 2) T)).
  { rewrite pass_Pe. apply Rmult_le_pos; [|lra].
    apply Rmult_le_pos; [| left; apply Rinv_0_lt_compat; lra].
    apply Rmult_le_pos; [| apply pow2_ge_0].
    apply Rmult_le_pos; [lra | left; apply Rinv_0_lt_compat; lra]. }
  assert (HPc : 60000 * T <= w_Pc (winding_pass config tou (1000 ^ 2) T)).
  { rewrite pass_Pc.
    replace (3 * (0.561 * magB T * tou) ^ 2 * resist T)
      with (3 * 0.561 ^ 2 * tou ^ 2 * (magB T ^ 2 * resist T)) by ring.
    assert (Hk : 200000000 <= 3 * 0.561 ^ 2 * tou ^ 2) by nra.
    assert (Hb : 0.0003 * T <= magB T ^ 2 * resist T).
    { destruct HT as [->|HT].
      - unfold magB, resist. lra.
      - assert (H1 : 0.00045 * T <= - magB T) by (unfold magB; lra).
        assert (H2 : 0.0002 * T <= resist T) by (unfold resist; lra).
        assert (H3 : 0.002 * T <= magB T ^ 2) by nra.
        nra. }
    assert (0 <= T) by (destruct HT; lra).
    nra. }
  rewrite pass_Tw. destruct HT; split; lra.
Qed.

Lemma runaway_loop fuel : forall T,
  T = 295 \/ 10000 <= T ->
  winding_loop config fuel
    [_frictional_tou config + _drag_coeff_wR2 config * 1000 ^ 2] [1000 ^ 2] [T] = Running.
Proof.
  induction fuel as [|fuel IH]; intros T HT; [reflexivity|].
  rewrite winding_loop_S.
  destruct (runaway_step T HT) as [H1 H2].
  unfold where_of, cond_of, pass_of. cbn [Np.zip_with combine fst snd forallb].
  unfold converged.
  fold (next_Tw (_frictional_tou config + _drag_coeff_wR2 config * 1000 ^ 2) (1000 ^ 2) T).
  replace (Np.ltb _ _) with false.
  - cbn [andb fst snd]. apply IH. now right.
  - symmetry. apply ltb_false. rewrite Rabs_right; lra.
Qed.

(** C3, as the specification words it, fails: there is no cap.  At a speed
    of 1000 the winding temperature grows by more than a degree on every
    pass, so whatever the number of passes watched the call has neither
    returned nor raised. *)
Lemma thermal_loop_has_no_cap :
  ~ (exists cap, calculate_power config cap [1000] [0] [0] <> Running).
Proof.
  intros [cap H]. apply H. rewrite calculate_power_unfold.
  unfold tou_of, speed2_of. cbn [map].
  change (Ta config) with 295.
  rewrite runaway_loop by now left. reflexivity.
Qed.

(** C3, amended.  With the constants of [config.py], for index-aligned
    arrays whose speeds lie between 0 and [MaxVelocity], the
    winding-temperature iteration of [calculate_power] ends within seven
    passes and the call returns.  The loop has no cap and no convergence
    error: for any configuration and input it never raises, it only returns
    or goes on. *)
Theorem thermal_loop_terminates_in_range speed acceleration slope :
  Forall (fun v => 0 <= v <= MaxVelocity config) speed ->
  length acceleration = length speed -> length slope = length speed ->
  (forall fuel, (7 <= fuel)%nat ->
     exists P PO, calculate_power config fuel speed acceleration slope = Returns (P, PO))
  /\ (forall cfg fuel tou speed2 Tw_i e,
        winding_loop cfg fuel tou speed2 Tw_i <> Raises e).
Proof.
  intros Hv Ha Hs. split.
  - intros fuel Hf.
    destruct (calculate_power_returns fuel speed acceleration slope Hv Hf Ha Hs)
      as (Pc & Pe & P & PO & H).
    exists P, PO. tauto.
  - intros. apply winding_loop_no_raise.
Qed.

Lemma thermal_loop_terminates_in_range_witness :
  exists P PO, calculate_power config 7 [0; 17.5; 35] [1; 0; -1] [0; 2; -2] = Returns (P, PO).
Proof.
  refine (proj1 (thermal_loop_terminates_in_range
                   [0; 17.5; 35] [1; 0; -1] [0; 2; -2] _ eq_refl eq_refl) 7%nat _).
  - repeat constructor; simpl; lra.
  - lia.
Defined.

(** ** The constraint function on index-aligned arrays *)

Lemma avg_speed_segments xs ys :
  map (fun x => x / 2) (Np.zip_with Rplus xs ys)
  = map (fun p => (fst p + snd p) / 2) (combine xs ys).
Proof.
  revert ys; induction xs as [|x xs IH]; intros [|y ys]; simpl; auto.
  now rewrite IH.
Qed.

Lemma dt_segments xs ys dx :
  Np.zip_with Rdiv (map (fun d => 2 * d) dx)
    (map (fun v => v + EPSILON) (Np.zip_with Rplus xs ys))
  = Np.zip_with (fun p x => 2 * x / (fst p + snd p + EPSILON)) (combine xs ys) dx.
Proof.
  revert ys dx; induction xs as [|x xs IH]; intros [|y ys] [|d dx]; simpl; auto.
  now rewrite IH.
Qed.

Lemma acceleration_segments xs ys dt :
  Np.zip_with Rdiv (Np.zip_with Rminus ys xs) dt
  = Np.zip_with (fun p t => (snd p - fst p) / t) (combine xs ys) dt.
Proof.
  revert ys dt; induction xs as [|x xs IH]; intros [|y ys] [|d dt]; simpl; auto.
  now rewrite IH.
Qed.

Lemma segments_length v : length (segments v) = pred (length v).
Proof.
  unfold segments. rewrite length_combine, but_last_length, from_1_length. lia.
Qed.

Lemma segment_avg_speed_length v : length (segment_avg_speed v) = pred (length v).
Proof. unfold segment_avg_speed. now rewrite length_map, segments_length. Qed.

Lemma segment_dt_length v dx :
  length dx = pred (length v) -> length (segment_dt v dx) = pred (length v).
Proof.
  intros H. unfold segment_dt. rewrite zip_with_length; rewrite segments_length; auto.
Qed.

Lemma segment_acceleration_length v dt :
  length dt = pred (length v) -> length (segment_acceleration v dt) = pred (length v).
Proof.
  intros H. unfold segment_acceleration.
  rewrite zip_with_length; rewrite segments_length; auto.
Qed.

Lemma cumsum_from_length acc a : length (Np.cumsum_from acc a) = length a.
Proof. revert acc; induction a; intros; simpl; auto. Qed.

Lemma cumsum_length a : length (Np.cumsum a) = length a.
Proof. apply cumsum_from_length. Qed.

Lemma solarpower_length cfg t lat lon :
  length (calculate_incident_solarpower cfg t lat lon) = length t.
Proof. unfold calculate_incident_solarpower. now rewrite !length_map. Qed.

Lemma calculate_dt_segments v dx :
  length dx = pred (length v) ->
  calculate_dt (Np.but_last v) (Np.from_1 v) dx = Returns (segment_dt v dx).
Proof.
  intros H. rewrite calculate_dt_same.
  - now rewrite dt_segments.
  - apply slices_same_length.
  - now rewrite from_1_length.
Qed.

(** The arrays the loop returns have one entry per element. *)
Lemma winding_loop_shape cfg fuel : forall tou speed2 Tw_i Pc Pe,
  length speed2 = length tou -> length Tw_i = length tou ->
  winding_loop cfg fuel tou speed2 Tw_i = Returns (Pc, Pe) ->
  length Pc = length tou /\ length Pe = length tou.
Proof.
  induction fuel as [|fuel IH]; intros tou speed2 Tw_i Pc Pe H2 HT H; [discriminate|].
  rewrite winding_loop_S in H.
  assert (Hp : length (pass_of cfg tou speed2 Tw_i) = length tou).
  { unfold pass_of. rewrite zip_with_length; rewrite length_combine; lia. }
  destruct (forallb _ _).
  - injection H as <- <-. now rewrite !length_map.
  - apply (IH _ _ _ _ _ H2) in H; [exact H|].
    unfold where_of. rewrite zip_with_length; rewrite length_combine.
    + unfold cond_of. rewrite zip_with_length; lia.
    + unfold cond_of. rewrite zip_with_length; lia.
Qed.

Lemma calculate_power_shape cfg fuel speed acceleration slope P PO :
  length acceleration = length speed -> length slope = length speed ->
  calculate_power cfg fuel speed acceleration slope = Returns (P, PO) ->
  length P = length speed /\ length PO = length speed.
Proof.
  intros Ha Hs H.
  assert (Ht : length (tou_of cfg speed) = length speed)
    by (unfold tou_of; now rewrite !length_map).
  destruct (winding_loop cfg fuel (tou_of cfg speed) (speed2_of speed)
              (map (fun _ => Ta cfg) speed)) as [[Pc Pe]| |] eqn:Hloop;
    [| rewrite calculate_power_unfold, Hloop in H; discriminate ..].
  pose proof Hloop as Hshape.
  apply winding_loop_shape in Hshape as [H1 H2];
    [| unfold speed2_of; rewrite length_map; congruence
     | rewrite length_map; congruence].
  rewrite Ht in H1, H2.
  rewrite (calculate_power_aligned cfg fuel speed acceleration slope Pc Pe) in H;
    try assumption.
  injection H as <- <-. unfold Np.clip0, speed2_of.
  split; repeat (rewrite ?length_map; rewrite ?zip_with_length);
    rewrite ?length_map; congruence.
Qed.

Lemma battery_acc_locals_aligned cfg fuel v seg slope lat lon :
  length seg = pred (length v) -> length slope = pred (length v) ->
  battery_acc_locals cfg fuel v seg slope lat lon =
  ' (P, PO) <- calculate_power cfg fuel (segment_avg_speed v)
                 (segment_acceleration v (segment_dt v seg)) slope ;;
  Returns (locals_of cfg v seg lat lon P PO).
Proof.
  intros Hseg Hslope. unfold battery_acc_locals.
  pose proof (slices_same_length v) as Hv.
  unfold Np.add at 1. rewrite broadcast_same by assumption. cbn [bind].
  rewrite calculate_dt_segments by assumption. cbn [bind].
  unfold Np.sub at 1. rewrite broadcast_same by (symmetry; assumption). cbn [bind].
  unfold Np.div. rewrite broadcast_same
    by (rewrite zip_with_length, segment_dt_length, from_1_length; auto).
  cbn [bind]. rewrite avg_speed_segments, acceleration_segments.
  fold (segments v). fold (segment_avg_speed v).
  fold (segment_acceleration v (segment_dt v seg)).
  destruct (calculate_power _ _ _ _ _) as [[P PO]| |] eqn:Hp; [|reflexivity ..].
  apply calculate_power_shape in Hp as [HP HPO];
    [| rewrite segment_acceleration_length, ?segment_avg_speed_length;
       auto using segment_dt_length
     | rewrite segment_avg_speed_length; auto].
  rewrite segment_avg_speed_length in HP, HPO.
  cbn [bind]. unfold Np.sub, Np.mul.
  rewrite broadcast_same
    by (rewrite solarpower_length, cumsum_length, segment_dt_length; auto).
  cbn [bind]. rewrite broadcast_same; [reflexivity|].
  rewrite zip_with_length, segment_dt_length; auto.
  rewrite solarpower_length, cumsum_length, segment_dt_length; auto.
Qed.

Lemma acceleration_margin_aligned cfg l :
  length (c_PO l) = length (c_avg_speed l) ->
  length (c_acceleration l) = length (c_avg_speed l) ->
  acceleration_margin cfg l = Returns (margin_of cfg l).
Proof.
  intros H1 H2. unfold acceleration_margin, margin_of, Np.div, Np.sub.
  rewrite broadcast_same by (unfold Np.clip0; now rewrite !length_map).
  cbn [bind]. rewrite broadcast_same; [reflexivity|].
  rewrite zip_with_length; unfold Np.clip0; rewrite !length_map; congruence.
Qed.

(** ** Minimum and maximum *)

Lemma fold_left_Rmin_least a : forall x, least (fold_left Rmin a x) (x :: a).
Proof.
  induction a as [|y a IH]; intros x; simpl.
  - split; [now left | constructor; [lra | constructor]].
  - destruct (IH (Rmin x y)) as [Hin Hall]. inversion_clear Hall as [|? ? Hm Ha].
    pose proof (Rmin_l x y). pose proof (Rmin_r x y). split.
    + destruct Hin as [Hin|Hin]; [|now right; right].
      rewrite <- Hin. unfold Rmin. destruct (Rle_dec x y); simpl; auto.
    + constructor; [lra|]. constructor; [lra|]. exact Ha.
Qed.

Lemma fold_left_Rmax_greatest a : forall x, greatest (fold_left Rmax a x) (x :: a).
Proof.
  induction a as [|y a IH]; intros x; simpl.
  - split; [now left | constructor; [lra | constructor]].
  - destruct (IH (Rmax x y)) as [Hin Hall]. inversion_clear Hall as [|? ? Hm Ha].
    pose proof (Rmax_l x y). pose proof (Rmax_r x y). split.
    + destruct Hin as [Hin|Hin]; [|now right; right].
      rewrite <- Hin. unfold Rmax. destruct (Rle_dec x y); simpl; auto.
    + constructor; [lra|]. constructor; [lra|]. exact Ha.
Qed.

Lemma min_least a m : Np.min a = Returns m -> least m a.
Proof.
  destruct a as [|x a]; [discriminate|]. intros [= <-]. apply fold_left_Rmin_least.
Qed.

Lemma max_greatest a m : Np.max a = Returns m -> greatest m a.
Proof.
  destruct a as [|x a]; [discriminate|]. intros [= <-]. apply fold_left_Rmax_greatest.
Qed.

Lemma locals_of_shapes cfg v seg lat lon P PO :
  length seg = pred (length v) ->
  length P = pred (length v) -> length PO = pred (length v) ->
  let l := locals_of cfg v seg lat lon P PO in
  length (c_avg_speed l) = pred (length v)
  /\ length (c_acceleration l) = pred (length v)
  /\ length (c_PO l) = pred (length v)
  /\ length (c_battery_profile l) = pred (length v)
  /\ length (margin_of cfg l) = pred (length v).
Proof.
  intros Hseg HP HPO l.
  assert (H1 : length (c_avg_speed l) = pred (length v))
    by apply segment_avg_speed_length.
  assert (H2 : length (c_acceleration l) = pred (length v))
    by (apply segment_acceleration_length, segment_dt_length, Hseg).
  assert (H3 : length (c_PO l) = pred (length v)) by exact HPO.
  assert (Hsol : length (c_SolP l) = pred (length v)).
  { cbn. now rewrite solarpower_length, cumsum_length, segment_dt_length. }
  assert (Hd : length (segment_dt v seg) = pred (length v))
    by (apply segment_dt_length, Hseg).
  repeat split; try assumption.
  - cbn [c_battery_profile l locals_of]. rewrite !length_map, cumsum_length.
    cbn [c_SolP l locals_of] in Hsol.
    assert (Hz : length (Np.zip_with Rminus P
                  (calculate_incident_solarpower cfg (Np.cumsum (segment_dt v seg)) lat lon))
                 = pred (length v))
      by (rewrite zip_with_length; congruence).
    rewrite zip_with_length; congruence.
  - unfold margin_of.
    assert (Hc : length (Np.clip0 (c_PO l)) = pred (length v))
      by (unfold Np.clip0; rewrite length_map; exact H3).
    assert (Hq : length (Np.zip_with Rdiv (Np.clip0 (c_PO l))
                           (map (fun a => Mass cfg * a) (c_avg_speed l)))
                 = pred (length v))
      by (rewrite zip_with_length; rewrite ?length_map; congruence).
    rewrite zip_with_length; congruence.
Qed.

(** What a returned pair is, on index-aligned arrays. *)
Lemma constraint_func_aligned_inv cfg fuel v seg slope lat lon b a :
  length seg = pred (length v) -> length slope = pred (length v) ->
  battery_acc_constraint_func cfg fuel v seg slope lat lon = Returns (b, a) ->
  exists P PO,
    calculate_power cfg fuel (segment_avg_speed v)
      (segment_acceleration v (segment_dt v seg)) slope = Returns (P, PO)
    /\ battery_acc_locals cfg fuel v seg slope lat lon
       = Returns (locals_of cfg v seg lat lon P PO)
    /\ least b (c_battery_profile (locals_of cfg v seg lat lon P PO))
    /\ greatest a (margin_of cfg (locals_of cfg v seg lat lon P PO)).
Proof.
  intros Hseg Hslope H. unfold battery_acc_constraint_func in H.
  pose proof (battery_acc_locals_aligned cfg fuel v seg slope lat lon Hseg Hslope) as Hl.
  rewrite Hl in H.
  destruct (calculate_power _ _ _ _ _) as [[P PO]| |] eqn:Hp; try discriminate H.
  cbn [bind] in H, Hl. exists P, PO. split; [reflexivity|]. split; [exact Hl|].
  pose proof Hp as Hshape.
  apply calculate_power_shape in Hshape as [HP HPO];
    [| rewrite segment_acceleration_length, ?segment_avg_speed_length;
       auto using segment_dt_length
     | rewrite segment_avg_speed_length; auto].
  rewrite segment_avg_speed_length in HP, HPO.
  destruct (locals_of_shapes cfg v seg lat lon P PO Hseg HP HPO) as (S1 & S2 & S3 & _).
  rewrite acceleration_margin_aligned in H by congruence.
  bind_inv H. injection H as <- <-.
  split; [apply min_least | apply max_greatest]; assumption.
Qed.

(** The initial battery charge plays no part in [calculate_power]. *)
Lemma winding_loop_set_initial cfg x fuel : forall tou speed2 Tw_i,
  winding_loop (set_initial cfg x) fuel tou speed2 Tw_i
  = winding_loop cfg fuel tou speed2 Tw_i.
Proof.
  induction fuel as [|fuel IH]; intros; [reflexivity|].
  rewrite !winding_loop_S.
  change (cond_of (set_initial cfg x)) with (cond_of cfg).
  change (pass_of (set_initial cfg x)) with (pass_of cfg).
  change (where_of (set_initial cfg x)) with (where_of cfg).
  now rewrite IH.
Qed.

Lemma calculate_power_set_initial cfg x fuel speed acceleration slope :
  calculate_power (set_initial cfg x) fuel speed acceleration slope
  = calculate_power cfg fuel speed acceleration slope.
Proof.
  rewrite !calculate_power_unfold, winding_loop_set_initial. reflexivity.
Qed.

(** With the constants of [config.py], on index-aligned arrays of at least
    one segment whose average speeds lie between 0 and [MaxVelocity], the
    constraint function returns. *)
Lemma constraint_func_returns x fuel v seg slope lat lon :
  length seg = pred (length v) -> length slope = pred (length v) ->
  (2 <= length v)%nat -> (7 <= fuel)%nat ->
  Forall (fun s => 0 <= s <= 35) (segment_avg_speed v) ->
  exists Pc Pe P PO b a,
    winding_loop config fuel (tou_of config (segment_avg_speed v))
      (speed2_of (segment_avg_speed v))
      (map (fun _ => Ta config) (segment_avg_speed v)) = Returns (Pc, Pe)
    /\ losses_ok Pc Pe
    /\ length Pc = pred (length v) /\ length Pe = pred (length v)
    /\ calculate_power config fuel (segment_avg_speed v)
         (segment_acceleration v (segment_dt v seg)) slope = Returns (P, PO)
    /\ battery_acc_locals (set_initial config x) fuel v seg slope lat lon
       = Returns (locals_of (set_initial config x) v seg lat lon P PO)
    /\ battery_acc_constraint_func (set_initial config x) fuel v seg slope lat lon
       = Returns (b, a).
Proof.
  intros Hseg Hslope Hv Hf Hs.
  destruct (calculate_power_returns fuel (segment_avg_speed v)
              (segment_acceleration v (segment_dt v seg)) slope Hs Hf)
    as (Pc & Pe & P & PO & Hloop & Hl & H1 & H2 & Hp);
    [rewrite segment_acceleration_length, ?segment_avg_speed_length;
     auto using segment_dt_length
    | rewrite segment_avg_speed_length; auto |].
  rewrite segment_avg_speed_length in H1, H2.
  pose proof Hp as Hshape.
  apply calculate_power_shape in Hshape as [HP HPO];
    [| rewrite segment_acceleration_length, ?segment_avg_speed_length;
       auto using segment_dt_length
     | rewrite segment_avg_speed_length; auto].
  rewrite segment_avg_speed_length in HP, HPO.
  pose proof (battery_acc_locals_aligned (set_initial config x) fuel v seg slope lat lon
                Hseg Hslope) as E.
  rewrite calculate_power_set_initial, Hp in E. cbn [bind] in E.
  destruct (locals_of_shapes (set_initial config x) v seg lat lon P PO Hseg HP HPO)
    as (S1 & S2 & S3 & S4 & S5).
  exists Pc, Pe, P, PO.
  unfold battery_acc_constraint_func. rewrite E. cbn [bind].
  rewrite acceleration_margin_aligned by congruence.
  destruct (c_battery_profile _) as [|y bp]; [simpl in S4; lia|].
  destruct (margin_of _ _) as [|z mg]; [simpl in S5; lia|].
  cbn [Np.min Np.max bind]. do 2 eexists. repeat split; try eassumption.
Qed.

Lemma least_trajectory cfg P SolP dt b :
  least b (map (fun x => InitialBatteryCapacity cfg - x - SafeBatteryLevel cfg)
             (map (fun x => x / 3600)
                (Np.cumsum (Np.zip_with Rmult (Np.zip_with Rminus P SolP) dt)))) ->
  exists m, least m (battery_trajectory cfg P SolP dt) /\ b = m - SafeBatteryLevel cfg.
Proof.
  unfold battery_trajectory. rewrite map_map.
  set (e := Np.cumsum _). intros [Hin Hall].
  apply in_map_iff in Hin as (x & Hx & Hin).
  exists (InitialBatteryCapacity cfg - x / 3600). split; [|lra].
  split; [apply in_map_iff; eauto|].
  apply Forall_map. rewrite Forall_map in Hall.
  eapply Forall_impl; [|exact Hall]. intros y Hy. simpl in Hy. lra.
Qed.

Lemma battery_trajectory_length cfg P SolP dt n :
  length P = n -> length SolP = n -> length dt = n ->
  length (battery_trajectory cfg P SolP dt) = n.
Proof.
  intros HP HS Hd. unfold battery_trajectory.
  rewrite length_map, cumsum_length.
  assert (Hz : length (Np.zip_with Rminus P SolP) = n)
    by (rewrite zip_with_length; congruence).
  rewrite zip_with_length; congruence.
Qed.

(** C2.  On a profile and a route with index-aligned arrays, the first
    returned component is the minimum over the segments of the battery
    trajectory, minus [SafeBatteryLevel]; the trajectory, one value per
    segment, is
    [InitialBatteryCapacity - cumsum((net_power - solar_power) * dt) / 3600],
    with the net power of [calculate_power] on the per-segment average speed,
    acceleration and slope, and the solar power of
    [calculate_incident_solarpower] at the cumulative elapsed time. *)
Theorem battery_margin_is_trajectory_min cfg fuel v seg slope lat lon b a :
  length seg = pred (length v) -> length slope = pred (length v) ->
  battery_acc_constraint_func cfg fuel v seg slope lat lon = Returns (b, a) ->
  exists dt P PO,
    calculate_dt (Np.but_last v) (Np.from_1 v) seg = Returns dt
    /\ calculate_power cfg fuel (segment_avg_speed v) (segment_acceleration v dt) slope
       = Returns (P, PO)
    /\ let SolP := calculate_incident_solarpower cfg (Np.cumsum dt) lat lon in
       length (battery_trajectory cfg P SolP dt) = pred (length v)
       /\ exists m, least m (battery_trajectory cfg P SolP dt)
                    /\ b = m - SafeBatteryLevel cfg.
Proof.
  intros Hseg Hslope H.
  destruct (constraint_func_aligned_inv _ _ _ _ _ _ _ _ _ Hseg Hslope H)
    as (P & PO & Hp & _ & Hb & _).
  exists (segment_dt v seg), P, PO.
  split; [now apply calculate_dt_segments|]. split; [exact Hp|].
  pose proof (segment_dt_length v seg Hseg) as Hd.
  apply calculate_power_shape in Hp as [HP _];
    [| rewrite segment_acceleration_length, ?segment_avg_speed_length; auto
     | rewrite segment_avg_speed_length; auto].
  rewrite segment_avg_speed_length in HP.
  split; [|apply least_trajectory, Hb].
  apply battery_trajectory_length; try assumption.
  now rewrite solarpower_length, cumsum_length.
Qed.

Lemma battery_margin_is_trajectory_min_witness :
  exists b a dt P m,
    battery_acc_constraint_func config 7 [0; 20; 0] [100; 100] [0; 0] [13; 13] [80; 80]
    = Returns (b, a)
    /\ calculate_dt [0; 20] [20; 0] [100; 100] = Returns dt
    /\ least m (battery_trajectory config P
                  (calculate_incident_solarpower config (Np.cumsum dt) [13; 13] [80; 80]) dt)
    /\ b = m - SafeBatteryLevel config.
Proof.
  assert (Hs : Forall (fun s => 0 <= s <= 35) (segment_avg_speed [0; 20; 0]))
    by (repeat constructor; simpl; lra).
  destruct (constraint_func_returns (InitialBatteryCapacity config) 7 [0; 20; 0]
              [100; 100] [0; 0] [13; 13] [80; 80]
              eq_refl eq_refl (le_S _ _ (le_n 2)) (le_n 7) Hs)
    as (Pc & Pe & P0 & PO0 & b & a & _ & _ & _ & _ & _ & _ & H).
  change (set_initial config (InitialBatteryCapacity config)) with config in H.
  destruct (battery_margin_is_trajectory_min config 7 [0; 20; 0] [100; 100] [0; 0]
              [13; 13] [80; 80] b a eq_refl eq_refl H)
    as (dt & P & PO & Hdt & _ & _ & m & Hm & Hb).
  exists b, a, dt, P, m. auto.
Defined.

(** ** [calculate_incident_solarpower] *)

(** C9.  The incident solar power does not depend on the latitude and
    longitude arguments: for any two pairs of them the result is the same,
    the Gaussian irradiance at the wrapped time scaled by panel area and
    panel efficiency. *)
Theorem solarpower_ignores_location cfg globaltime lat1 lon1 lat2 lon2 :
  calculate_incident_solarpower cfg globaltime lat1 lon1
  = calculate_incident_solarpower cfg globaltime lat2 lon2
  /\ calculate_incident_solarpower cfg globaltime lat1 lon1
     = map (fun t => _calc_solar_irradiance
                       (RaceStartTime cfg
                        + Np.remainder t (RaceEndTime cfg - RaceStartTime cfg))
                     * (PanelArea cfg * PanelEfficiency cfg)) globaltime.
Proof.
  split; [reflexivity|].
  unfold calculate_incident_solarpower. now rewrite !map_map.
Qed.

(** ** [extract_profiles] and [objective] *)

Lemma last_cumsum_from a : forall acc d,
  last (acc :: Np.cumsum_from acc a) d = acc + Np.sum a.
Proof.
  induction a as [|x a IH]; intros acc d.
  - simpl. lra.
  - change (last (acc :: Np.cumsum_from acc (x :: a)) d)
      with (last ((acc + x) :: Np.cumsum_from (acc + x) a) d).
    rewrite IH. simpl. lra.
Qed.

(** C6.  The last entry of the cumulative-time array [extract_profiles]
    returns is the value of [objective] on the same profile and segment
    array: both are the sum of the per-segment [dt]. *)
Theorem extract_time_is_objective cfg fuel v seg slope lat lon r :
  extract_profiles cfg fuel v seg slope lat lon = Returns r ->
  exists t, objective v seg = Returns t /\ last (cumulative_time r) 0 = t.
Proof.
  intros H. unfold extract_profiles in H. bind_inv H.
  injection H as <-. cbn [cumulative_time].
  unfold objective. rewrite E0. cbn [bind]. eexists. split; [reflexivity|].
  unfold Np.cumsum. rewrite last_cumsum_from. lra.
Qed.

Lemma extract_profiles_returns fuel v seg slope lat lon :
  length seg = pred (length v) -> length slope = pred (length v) ->
  (7 <= fuel)%nat ->
  Forall (fun s => 0 <= s <= 35) (segment_avg_speed v) ->
  exists r, extract_profiles config fuel v seg slope lat lon = Returns r.
Proof.
  intros Hseg Hslope Hf Hs.
  pose proof (segment_dt_length v seg Hseg) as Hd.
  destruct (calculate_power_returns fuel (segment_avg_speed v)
              (segment_acceleration v (segment_dt v seg)) slope Hs Hf)
    as (Pc & Pe & P & PO & _ & _ & _ & _ & Hp);
    [rewrite segment_acceleration_length, ?segment_avg_speed_length; auto
    | rewrite segment_avg_speed_length; auto |].
  pose proof Hp as Hshape.
  apply calculate_power_shape in Hshape as [HP _];
    [| rewrite segment_acceleration_length, ?segment_avg_speed_length; auto
     | rewrite segment_avg_speed_length; auto].
  rewrite segment_avg_speed_length in HP.
  unfold extract_profiles.
  pose proof (slices_same_length v) as Hv.
  unfold Np.add at 1. rewrite broadcast_same by assumption. cbn [bind].
  rewrite calculate_dt_segments by assumption. cbn [bind].
  unfold Np.sub at 1. rewrite broadcast_same by (symmetry; assumption). cbn [bind].
  unfold Np.div. rewrite broadcast_same
    by (rewrite zip_with_length, Hd, from_1_length; auto).
  cbn [bind]. rewrite avg_speed_segments, acceleration_segments.
  fold (segments v). fold (segment_avg_speed v).
  fold (segment_acceleration v (segment_dt v seg)).
  rewrite Hp. cbn [bind]. unfold Np.mul, Np.sub.
  rewrite broadcast_same by congruence. cbn [bind].
  rewrite broadcast_same by (rewrite solarpower_length, cumsum_length; congruence).
  cbn [bind].
  rewrite broadcast_same; [cbn [bind]; eexists; reflexivity|].
  rewrite !cumsum_length, !length_map, !zip_with_length;
    rewrite ?solarpower_length, ?cumsum_length; congruence.
Qed.

Lemma extract_time_is_objective_witness :
  exists r t,
    extract_profiles config 7 [0; 20; 0] [100; 100] [0; 0] [13; 13] [80; 80] = Returns r
    /\ objective [0; 20; 0] [100; 100] = Returns t
    /\ last (cumulative_time r) 0 = t.
Proof.
  assert (Hs : Forall (fun s => 0 <= s <= 35) (segment_avg_speed [0; 20; 0]))
    by (repeat constructor; simpl; lra).
  destruct (extract_profiles_returns 7 [0; 20; 0] [100; 100] [0; 0] [13; 13] [80; 80]
              eq_refl eq_refl (le_n 7) Hs) as (r & Hr).
  destruct (extract_time_is_objective config 7 [0; 20; 0] [100; 100] [0; 0]
              [13; 13] [80; 80] r Hr) as (t & Ht & Hlast).
  exists r, t. auto.
Defined.

(** ** Profiles of two segments *)

Lemma length_two (a : Np.ndarray) : length a = 2%nat -> exists x y, a = [x; y].
Proof.
  destruct a as [|x [|y [|z a]]]; try discriminate. intros _. now exists x, y.
Qed.

(** A run of the constraint function, with the constants of [config.py],
    on a profile of three nodes. *)
Lemma two_segments_run x fuel v0 v1 v2 d0 d1 s0 s1 lat lon :
  (7 <= fuel)%nat -> 0 <= (v0 + v1) / 2 <= 35 -> 0 <= (v1 + v2) / 2 <= 35 ->
  exists pc0 pe0 pc1 pe1 b a,
    (0 <= pc0 /\ 0 <= pe0 /\ pc0 + pe0 <= 77)
    /\ (0 <= pc1 /\ 0 <= pe1 /\ pc1 + pe1 <= 77)
    /\ let a0 := (v1 - v0) / (2 * d0 / (v0 + v1 + EPSILON)) in
       let a1 := (v2 - v1) / (2 * d1 / (v1 + v2 + EPSILON)) in
       let l := locals_of (set_initial config x) [v0; v1; v2] [d0; d1] lat lon
                  [net_power_of config ((v0 + v1) / 2) a0 s0 pc0 pe0;
                   net_power_of config ((v1 + v2) / 2) a1 s1 pc1 pe1]
                  [output_power_of config ((v0 + v1) / 2);
                   output_power_of config ((v1 + v2) / 2)] in
       battery_acc_locals (set_initial config x) fuel [v0; v1; v2] [d0; d1] [s0; s1]
         lat lon = Returns l
       /\ battery_acc_constraint_func (set_initial config x) fuel [v0; v1; v2] [d0; d1]
            [s0; s1] lat lon = Returns (b, a)
       /\ least b (c_battery_profile l)
       /\ greatest a (margin_of (set_initial config x) l).
Proof.
  intros Hf H0 H1.
  assert (Hs : Forall (fun s => 0 <= s <= 35) (segment_avg_speed [v0; v1; v2]))
    by (constructor; [exact H0|]; constructor; [exact H1|]; constructor).
  destruct (constraint_func_returns x fuel [v0; v1; v2] [d0; d1] [s0; s1] lat lon
              eq_refl eq_refl (le_S _ _ (le_n 2)) Hf Hs)
    as (Pc & Pe & P & PO & b & a & Hloop & Hl & HPc & HPe & Hp & Hloc & Hrun).
  destruct (length_two Pc HPc) as (pc0 & pc1 & ->).
  destruct (length_two Pe HPe) as (pe0 & pe1 & ->).
  inversion_clear Hl as [|? ? ? ? L0 Hl']. inversion_clear Hl' as [|? ? ? ? L1 _].
  exists pc0, pe0, pc1, pe1, b, a. split; [exact L0|]. split; [exact L1|].
  pose proof (calculate_power_aligned config fuel (segment_avg_speed [v0; v1; v2])
                (segment_acceleration [v0; v1; v2] (segment_dt [v0; v1; v2] [d0; d1]))
                [s0; s1] _ _ Hloop eq_refl eq_refl eq_refl eq_refl) as Hp'.
  rewrite Hp in Hp'. injection Hp' as HP HPO.
  destruct (constraint_func_aligned_inv (set_initial config x) fuel [v0; v1; v2]
              [d0; d1] [s0; s1] lat lon b a eq_refl eq_refl Hrun)
    as (P' & PO' & Hp'' & _ & Hb & Ha).
  rewrite calculate_power_set_initial, Hp in Hp''. injection Hp'' as <- <-.
  subst P PO. cbv zeta.
  split; [exact Hloc|]. split; [exact Hrun|]. split; [exact Hb | exact Ha].
Qed.

(** ** The acceleration margin *)

Lemma greatest_ge a m x : greatest m a -> In x a -> x <= m.
Proof. intros [_ H] Hin. rewrite Forall_forall in H. now apply H. Qed.

(** On index-aligned arrays the second returned component is the greatest
    of the per-segment margins: it is non-negative as soon as one segment
    has a non-negative margin. *)
Lemma acceleration_margin_nonneg_iff cfg fuel v seg slope lat lon b a :
  length seg = pred (length v) -> length slope = pred (length v) ->
  battery_acc_constraint_func cfg fuel v seg slope lat lon = Returns (b, a) ->
  exists l,
    battery_acc_locals cfg fuel v seg slope lat lon = Returns l
    /\ greatest a (margin_of cfg l)
    /\ (0 <= a <-> Exists (fun m => 0 <= m) (margin_of cfg l)).
Proof.
  intros Hseg Hslope H.
  destruct (constraint_func_aligned_inv _ _ _ _ _ _ _ _ _ Hseg Hslope H)
    as (P & PO & _ & Hl & _ & Ha).
  eexists. split; [exact Hl|]. split; [exact Ha|].
  split.
  - intros H0. apply Exists_exists. exists a. split; [apply Ha | exact H0].
  - intros HE. apply Exists_exists in HE as (m & Hin & Hm).
    pose proof (greatest_ge _ _ _ Ha Hin). lra.
Qed.

(** C1.  The second returned component is the maximum of the per-segment
    margins, so a non-negative value does not certify every segment.  On the
    profile [0, 20, 0] over two flat segments of 100 m the constraint
    function returns a non-negative acceleration margin, although on the
    first segment the commanded acceleration, about 2 m/s^2, is far above
    the deliverable one, about 0.065 m/s^2: the braking second segment alone
    makes the maximum positive. *)
Theorem acceleration_margin_masks_violation :
  exists l b a,
    battery_acc_locals config 7 [0; 20; 0] [100; 100] [0; 0] [13; 13] [80; 80] = Returns l
    /\ battery_acc_constraint_func config 7 [0; 20; 0] [100; 100] [0; 0] [13; 13] [80; 80]
       = Returns (b, a)
    /\ 0 <= a
    /\ ~ acceleration_feasible config l
    /\ deliverable config (nth 0 (c_PO l) 0) (nth 0 (c_avg_speed l) 0) < 0.07
    /\ 2 <= nth 0 (c_acceleration l) 0.
Proof.
  destruct (two_segments_run (InitialBatteryCapacity config) 7 0 20 0 100 100 0 0
              [13; 13] [80; 80] (le_n 7))
    as (pc0 & pe0 & pc1 & pe1 & b & a & _ & _ & Hl & Hrun & _ & Ha); [lra | lra |].
  change (set_initial config (InitialBatteryCapacity config)) with config in *.
  eexists. exists b, a. split; [exact Hl|]. split; [exact Hrun|].
  assert (Hout : forall v, 0 <= v -> 0 <= output_power_of config v).
  { intros v Hv. unfold output_power_of.
    rewrite frictional_tou_value, drag_coeff_wR2_value. simpl.
    assert (0 <= v ^ 2) by apply pow2_ge_0.
    apply Rmult_le_pos; [nra | lra]. }
  assert (Hd0 : deliverable config (output_power_of config ((0 + 20) / 2)) ((0 + 20) / 2)
                < 0.07).
  { unfold deliverable. rewrite Rmax_right by (apply Hout; lra).
    unfold output_power_of.
    rewrite frictional_tou_value, drag_coeff_wR2_value. simpl. lra. }
  assert (Ha0 : 2 <= (20 - 0) / (2 * 100 / (0 + 20 + EPSILON)))
    by (unfold EPSILON; lra).
  split; [|split; [|split]].
  - apply Rle_trans with
      (deliverable config (output_power_of config ((20 + 0) / 2)) ((20 + 0) / 2)
       - (0 - 20) / (2 * 100 / (20 + 0 + EPSILON))).
    + assert (0 <= deliverable config (output_power_of config ((20 + 0) / 2))
                      ((20 + 0) / 2)).
      { unfold deliverable. apply Rmult_le_pos; [apply Rmax_l|].
        left. apply Rinv_0_lt_compat. simpl. lra. }
      assert ((0 - 20) / (2 * 100 / (20 + 0 + EPSILON)) <= 0)
        by (unfold EPSILON; lra).
      lra.
    + apply (greatest_ge _ _ _ Ha). right. left. reflexivity.
  - intros Hf. specialize (Hf 0%nat (le_S _ _ (le_n 1))). cbn in Hf.
    fold (deliverable config (output_power_of config ((0 + 20) / 2)) ((0 + 20) / 2)) in Hf.
    lra.
  - exact Hd0.
  - exact Ha0.
Qed.

(** ** The battery trajectory along the route *)

Lemma nth_map_lt (f : R -> R) a i d d' :
  (i < length a)%nat -> nth i (map f a) d' = f (nth i a d).
Proof.
  intros H. rewrite (nth_indep _ d' (f d)) by now rewrite length_map.
  apply map_nth.
Qed.








Lemma sin_radians_0 : sin (Np.radians 0) = 0.
Proof. unfold Np.radians. replace (0 * PI / 180) with 0 by lra. apply sin_0. Qed.

Lemma solar_irradiance_pos t : 0 < _calc_solar_irradiance t.
Proof. unfold _calc_solar_irradiance. apply Rmult_lt_0_compat; [lra | apply exp_pos]. Qed.


(** ** A configuration that starts below the safe level *)

Lemma locals_battery_profile cfg fuel v seg slope lat lon l :
  battery_acc_locals cfg fuel v seg slope lat lon = Returns l ->
  c_battery_profile l
  = map (fun x => InitialBatteryCapacity cfg - x - SafeBatteryLevel cfg)
        (c_energy_consumption l).
Proof.
  intros H. unfold battery_acc_locals in H. bind_inv H. now injection H as <-.
Qed.

(** C5, amended.  When [InitialBatteryCapacity < SafeBatteryLevel], the
    battery margin the constraint function returns is strictly negative on
    every profile and route whose cumulative net energy consumption
    [cumsum((net_power - solar_power) * dt) / 3600] is non-negative at the
    end of at least one segment. *)
Theorem low_initial_battery_is_infeasible cfg fuel v seg slope lat lon l b a :
  InitialBatteryCapacity cfg < SafeBatteryLevel cfg ->
  battery_acc_locals cfg fuel v seg slope lat lon = Returns l ->
  battery_acc_constraint_func cfg fuel v seg slope lat lon = Returns (b, a) ->
  Exists (fun e => 0 <= e) (c_energy_consumption l) ->
  b < 0.
Proof.
  intros Hlow Hl H He. unfold battery_acc_constraint_func in H.
  rewrite Hl in H. cbn [bind] in H. bind_inv H. injection H as <- _.
  apply min_least in E as [_ Hall].
  rewrite (locals_battery_profile _ _ _ _ _ _ _ _ Hl), Forall_map in Hall.
  apply Exists_exists in He as (e & Hin & He).
  rewrite Forall_forall in Hall. specialize (Hall e Hin). simpl in Hall. lra.
Qed.

Lemma remainder_small x d : 0 <= x < d -> Np.remainder x d = x.
Proof.
  intros H. unfold Np.remainder. rewrite (Zfloor_eq 0); [lra|].
  assert (Hd : 0 < d) by lra. split.
  - apply Rmult_le_pos; [lra | left; now apply Rinv_0_lt_compat].
  - apply Rmult_lt_reg_r with d; [assumption|].
    unfold Rdiv. rewrite Rmult_assoc, Rinv_l by lra. lra.
Qed.

(** Near solar noon the Gaussian fit is above 1000 W/m^2. *)
Lemma solar_irradiance_noon t :
  51000 <= t <= 53000 -> 1000 <= _calc_solar_irradiance t.
Proof.
  intros Ht. unfold _calc_solar_irradiance.
  set (z := (t - 51908.735) / 11484.950).
  assert (Hz : -0.1 <= z <= 0.1) by (unfold z; lra).
  pose proof (exp_ineq1_le (- (0.5) * z ^ 2)) as He.
  replace (-0.5 * z ^ 2) with (- (0.5) * z ^ 2) by lra.
  assert (z ^ 2 <= 0.01) by nra. lra.
Qed.

Lemma exp_nonpos x : x <= 0 -> exp x <= 1.
Proof.
  intros [H| ->]; [|rewrite exp_0; lra].
  left. rewrite <- exp_0. now apply exp_increasing.
Qed.

Lemma solar_irradiance_upper t : _calc_solar_irradiance t <= 1073.099.
Proof.
  unfold _calc_solar_irradiance.
  set (z := (t - 51908.735) / 11484.950).
  assert (Hx : exp (-0.5 * z ^ 2) <= 1).
  { apply exp_nonpos. pose proof (pow2_ge_0 z). lra. }
  lra.
Qed.

Lemma net_power_upper cfg v a s pc pe u :
  0 <= u ->
  output_power_of cfg v + v ^ 2 * _windage_losses_coeff_wR2 cfg + pc + pe
  + (Mass cfg * a + _slope_coeff cfg * sin (Np.radians s)) * v <= u ->
  net_power_of cfg v a s pc pe <= u.
Proof. intros Hu H. unfold net_power_of. now apply Rmax_lub. Qed.

Lemma net_power_lower cfg v a s pc pe :
  output_power_of cfg v + v ^ 2 * _windage_losses_coeff_wR2 cfg + pc + pe
  + (Mass cfg * a + _slope_coeff cfg * sin (Np.radians s)) * v
  <= net_power_of cfg v a s pc pe.
Proof. unfold net_power_of. apply Rmax_r. Qed.

(** C5 as the specification words it fails.  With an initial charge of
    610 Wh, one below the safe level of 611 Wh, the profile [0, 2, 0] over
    segments of 20 km and 100 m crawls through solar noon: the panels
    deliver more than a kilowatt, the car draws less than 90 W, and the
    battery margin comes out positive. *)
Lemma low_initial_battery_can_pass :
  InitialBatteryCapacity (set_initial config 610) < SafeBatteryLevel (set_initial config 610)
  /\ exists b a,
       battery_acc_constraint_func (set_initial config 610) 7 [0; 2; 0] [20000; 100]
         [0; 0] [13; 13] [80; 80] = Returns (b, a)
       /\ 0 < b.
Proof.
  split; [unfold SafeBatteryLevel; simpl; lra|].
  destruct (two_segments_run 610 7 0 2 0 20000 100 0 0 [13; 13] [80; 80] (le_n 7))
    as (pc0 & pe0 & pc1 & pe1 & b & a & L0 & L1 & _ & Hrun & [Hb _] & _); [lra | lra |].
  exists b, a. split; [exact Hrun|].
  cbv [locals_of c_battery_profile] in Hb.
  cbn [segment_dt segments Np.but_last Np.from_1 removelast tl combine Np.zip_with
       fst snd Np.cumsum Np.cumsum_from map nth calculate_incident_solarpower In] in Hb.
  assert (Hd0 : 19999 <= 2 * 20000 / (0 + 2 + EPSILON) <= 20000)
    by (unfold EPSILON; lra).
  assert (Hd1 : 0 <= 2 * 100 / (2 + 0 + EPSILON) <= 100)
    by (unfold EPSILON; lra).
  assert (HP0 : net_power_of config ((0 + 2) / 2)
                  ((2 - 0) / (2 * 20000 / (0 + 2 + EPSILON))) 0 pc0 pe0 <= 89).
  { apply net_power_upper; [lra|]. unfold output_power_of.
    rewrite sin_radians_0, frictional_tou_value, drag_coeff_wR2_value.
    pose proof windage_coeff_bounds as Hw.
    set (w := _windage_losses_coeff_wR2 config) in *.
    unfold _slope_coeff, EPSILON. simpl. lra. }
  assert (HP1 : net_power_of config ((2 + 0) / 2)
                  ((0 - 2) / (2 * 100 / (2 + 0 + EPSILON))) 0 pc1 pe1 <= 89).
  { apply net_power_upper; [lra|]. unfold output_power_of.
    rewrite sin_radians_0, frictional_tou_value, drag_coeff_wR2_value.
    pose proof windage_coeff_bounds as Hw.
    set (w := _windage_losses_coeff_wR2 config) in *.
    unfold _slope_coeff, EPSILON. simpl. lra. }
  set (P0 := net_power_of _ ((0 + 2) / 2) _ _ _ _) in *.
  set (P1 := net_power_of _ ((2 + 0) / 2) _ _ _ _) in *.
  change (DT (set_initial config 610)) with (DT config) in Hb.
  change (RaceStartTime (set_initial config 610)) with (9 * 3600) in Hb.
  rewrite (remainder_small (0 + 2 * 20000 / (0 + 2 + EPSILON))) in Hb
    by (unfold DT; simpl; lra).
  match type of Hb with
  | context [(P0 - _calc_solar_irradiance ?t * _)] =>
      assert (HS0 : 1000 <= _calc_solar_irradiance t)
        by (apply solar_irradiance_noon; lra);
      set (S0 := _calc_solar_irradiance t) in *
  end.
  match type of Hb with
  | context [(P1 - _calc_solar_irradiance ?t * _)] =>
      pose proof (solar_irradiance_pos t) as HS1;
      set (S1 := _calc_solar_irradiance t) in *
  end.
  set (d0 := 2 * 20000 / (0 + 2 + EPSILON)) in *.
  set (d1 := 2 * 100 / (2 + 0 + EPSILON)) in *.
  unfold SafeBatteryLevel, _power_coeff in Hb. simpl in Hb.
  assert (He0 : (P0 - S0 * (6 * 0.19)) * d0 <= -1000 * 19999) by nra.
  assert (He1 : (P1 - S1 * (6 * 0.19)) * d1 <= 8900) by nra.
  destruct Hb as [<-|[<-|[]]]; lra.
Qed.

Lemma low_initial_battery_is_infeasible_witness :
  exists l b a,
    battery_acc_locals (set_initial config 610) 7 [0; 20; 0] [100; 100] [0; 0]
      [13; 13] [80; 80] = Returns l
    /\ battery_acc_constraint_func (set_initial config 610) 7 [0; 20; 0] [100; 100]
         [0; 0] [13; 13] [80; 80] = Returns (b, a)
    /\ b < 0.
Proof.
  destruct (two_segments_run 610 7 0 20 0 100 100 0 0 [13; 13] [80; 80] (le_n 7))
    as (pc0 & pe0 & pc1 & pe1 & b & a & L0 & L1 & Hl & Hrun & _); [lra | lra |].
  eexists. exists b, a. split; [exact Hl|]. split; [exact Hrun|].
  refine (low_initial_battery_is_infeasible (set_initial config 610) 7 [0; 20; 0]
            [100; 100] [0; 0] [13; 13] [80; 80] _ b a _ Hl Hrun _).
  - unfold SafeBatteryLevel. simpl. lra.
  - apply Exists_cons_hd.
    change (DT (set_initial config 610)) with (DT config).
    match goal with
    | |- context [_calc_solar_irradiance ?t] =>
        pose proof (solar_irradiance_upper t) as HS;
        set (S0 := _calc_solar_irradiance t) in *
    end.
    pose proof (net_power_lower config ((0 + 20) / 2)
                  ((20 - 0) / (2 * 100 / (0 + 20 + EPSILON))) 0 pc0 pe0) as HP.
    set (P0 := net_power_of _ _ _ _ _ _) in *.
    unfold output_power_of in HP.
    rewrite sin_radians_0, frictional_tou_value, drag_coeff_wR2_value in HP.
    pose proof windage_coeff_bounds as Hw.
    set (w := _windage_losses_coeff_wR2 config) in *.
    unfold _slope_coeff, _power_coeff, EPSILON in *. simpl in *. nra.
Defined.

(** ** The divisor of the acceleration margin *)

Lemma locals_avg_speed cfg fuel v seg slope lat lon l :
  battery_acc_locals cfg fuel v seg slope lat lon = Returns l ->
  c_avg_speed l = segment_avg_speed v.
Proof.
  intros H. unfold battery_acc_locals in H.
  unfold Np.add at 1 in H. rewrite broadcast_same in H by apply slices_same_length.
  cbn [bind] in H. bind_inv H. injection H as <-. cbn [c_avg_speed].
  apply avg_speed_segments.
Qed.

Lemma segments_cons x y v : segments (x :: y :: v) = (x, y) :: segments (y :: v).
Proof. reflexivity. Qed.

Lemma segments_nonneg v :
  Forall (fun x => 0 <= x) v ->
  Forall (fun p => 0 <= fst p /\ 0 <= snd p) (segments v).
Proof.
  induction v as [|x v IH]; intros H; [constructor|].
  destruct v as [|y v]; [constructor|].
  rewrite segments_cons. inversion_clear H as [|? ? Hx H'].
  constructor; [|now apply IH].
  inversion_clear H' as [|? ? Hy _]. simpl. split; assumption.
Qed.

(** On a profile without negative nodes, the average speed of every segment
    is positive exactly when no segment has both end nodes at zero. *)
Lemma avg_speed_positive_iff v :
  Forall (fun x => 0 <= x) v ->
  Forall (fun s => 0 < s) (segment_avg_speed v) <-> ~ adjacent_zeros v.
Proof.
  intros Hv. apply segments_nonneg in Hv.
  unfold segment_avg_speed, adjacent_zeros.
  induction (segments v) as [|[x y] ps IH]; simpl.
  - split; [intros _ H; inversion H | constructor].
  - inversion_clear Hv as [|? ? [Hx Hy] Hps]. simpl in Hx, Hy.
    specialize (IH Hps). split.
    + intros H HE. inversion_clear H as [|? ? Hxy Hall].
      inversion_clear HE as [? ? [H0 H1]|? ? HE']; simpl in *; [lra|].
      now apply IH.
    + intros H. constructor.
      * destruct (Rle_lt_or_eq_dec 0 x Hx) as [Hx'|Hx']; [lra|].
        destruct (Rle_lt_or_eq_dec 0 y Hy) as [Hy'|Hy']; [lra|].
        exfalso. apply H. constructor. simpl. auto.
      * apply IH. intros HE. apply H. now constructor 2.
Qed.

Lemma interior_segments_positive mid : forall x,
  Forall (fun y => 0 < y) mid -> 0 <= x -> 0 < x \/ mid <> [] ->
  Forall (fun s => 0 < s) (segment_avg_speed (x :: mid ++ [0])).
Proof.
  unfold segment_avg_speed.
  induction mid as [|y mid IH]; intros x Hmid Hx Hne.
  - destruct Hne as [Hpos|Hne]; [|congruence].
    simpl. constructor; [lra | constructor].
  - inversion_clear Hmid as [|? ? Hy Hmid'].
    change ((y :: mid) ++ [0]) with (y :: (mid ++ [0])).
    rewrite segments_cons. cbn [map fst snd]. constructor; [lra|].
    apply IH; [assumption | lra | now left].
Qed.

Lemma within_get_bounds cfg N v :
  within_bounds (get_bounds cfg N) v ->
  exists mid, v = 0 :: mid ++ [0]
              /\ length mid = Z.to_nat (N - 2)
              /\ Forall (fun y => 0.01 <= y <= MaxVelocity cfg) mid.
Proof.
  unfold within_bounds, get_bounds. intros H.
  inversion H as [|b0 v0 bs vs H0 Hrest]; subst. simpl in H0.
  apply Forall2_app_inv_l in Hrest as (mid & lst & Hmid & Hlast & ->).
  inversion Hlast as [|b1 v1 ? ? H1 Hnil]; subst. inversion Hnil; subst.
  simpl in H1. exists mid.
  assert (v0 = 0) by lra. assert (v1 = 0) by lra. subst. split; [reflexivity|].
  split.
  - apply Forall2_length in Hmid. now rewrite repeat_length in Hmid.
  - clear - Hmid. remember (repeat _ _) as r eqn:Hr.
    assert (Hall : Forall (fun b => b = (0.01, MaxVelocity cfg)) r)
      by (subst r; apply Forall_forall; intros b Hb; now apply repeat_spec in Hb).
    clear Hr. induction Hmid as [|b y r mid Hb _ IH]; constructor.
    + inversion_clear Hall as [|? ? -> _]. exact Hb.
    + apply IH. now inversion Hall.
Qed.

Lemma scaled_positive (m : R) a :
  0 < m -> Forall (fun s => 0 < s) a <-> Forall (fun d => 0 < d) (map (fun s => m * s) a).
Proof.
  intros Hm. rewrite Forall_map. split; intros H; eapply Forall_impl; try exact H;
    intros s Hs; simpl in *; nra.
Qed.

(** C10, amended.  The divisor of the acceleration margin is
    [Mass * avg_speed] with nothing added to it.  On a profile without
    negative nodes it is strictly positive on every segment exactly when no
    two adjacent nodes are both zero.  That is the case for every profile
    within the bounds of [get_bounds] for three or more nodes; a profile
    within the bounds for two nodes has the single divisor zero, and any
    profile with two adjacent zero nodes has a zero divisor. *)
Theorem margin_divisor_positive_iff fuel v seg slope lat lon l :
  Forall (fun x => 0 <= x) v ->
  battery_acc_locals config fuel v seg slope lat lon = Returns l ->
  let divisor := map (fun a => Mass config * a) (c_avg_speed l) in
  acceleration_margin config l
  = (q <- Np.div (Np.clip0 (c_PO l)) divisor ;; Np.sub q (c_acceleration l))
  /\ (Forall (fun d => 0 < d) divisor <-> ~ adjacent_zeros v)
  /\ (forall N, (3 <= N)%Z -> within_bounds (get_bounds config N) v ->
        Forall (fun d => 0 < d) divisor)
  /\ (within_bounds (get_bounds config 2) v -> divisor = [0])
  /\ (adjacent_zeros v -> In 0 divisor).
Proof.
  intros Hv Hl divisor. unfold divisor. split; [reflexivity|].
  rewrite (locals_avg_speed _ _ _ _ _ _ _ _ Hl).
  assert (Hm : 0 < Mass config) by (simpl; lra).
  split; [|split; [|split]].
  - rewrite <- (scaled_positive _ _ Hm). now apply avg_speed_positive_iff.
  - intros N HN Hb. apply within_get_bounds in Hb as (mid & -> & Hlen & Hmid).
    rewrite <- (scaled_positive _ _ Hm). apply interior_segments_positive; [| lra |].
    + eapply Forall_impl; [|exact Hmid]. intros y Hy. simpl in Hy. lra.
    + right. intros ->. simpl in Hlen. lia.
  - intros Hb. apply within_get_bounds in Hb as (mid & -> & Hlen & _).
    destruct mid; [|discriminate Hlen]. simpl. f_equal. lra.
  - unfold adjacent_zeros, segment_avg_speed. intros HE.
    apply Exists_exists in HE as ([x y] & Hin & Hx & Hy). simpl in Hx, Hy. subst.
    apply in_map_iff. exists ((0 + 0) / 2). split; [lra|].
    apply in_map_iff. now exists (0, 0).
Qed.

Lemma margin_divisor_positive_iff_witness :
  exists l,
    battery_acc_locals config 7 [0; 20; 0] [100; 100] [0; 0] [13; 13] [80; 80] = Returns l
    /\ Forall (fun d => 0 < d) (map (fun a => Mass config * a) (c_avg_speed l)).
Proof.
  destruct (two_segments_run (InitialBatteryCapacity config) 7 0 20 0 100 100 0 0
              [13; 13] [80; 80] (le_n 7))
    as (pc0 & pe0 & pc1 & pe1 & b & a & _ & _ & Hl & _); [lra | lra |].
  change (set_initial config (InitialBatteryCapacity config)) with config in Hl.
  eexists. split; [exact Hl|].
  assert (Hv : Forall (fun x => 0 <= x) [0; 20; 0])
    by (constructor; [lra|]; constructor; [lra|]; constructor; [lra|]; constructor).
  destruct (margin_divisor_positive_iff 7 [0; 20; 0] [100; 100] [0; 0] [13; 13] [80; 80]
              _ Hv Hl) as (_ & _ & Hbounds & _).
  apply (Hbounds 3%Z); [lia|].
  unfold within_bounds, get_bounds. simpl.
  constructor; [simpl; lra|]. constructor; [simpl; lra|].
  constructor; [simpl; lra|]. constructor.
Defined.

(** C10 as the specification words it fails for a profile with a negative
    node: on [-1, 1] no two adjacent nodes are both zero, yet the average
    speed of the segment, and with it the divisor, is zero. *)
Lemma margin_divisor_zero_without_zero_nodes :
  exists l,
    battery_acc_locals config 7 [-1; 1] [100] [0] [13] [80] = Returns l
    /\ ~ adjacent_zeros [-1; 1]
    /\ ~ Forall (fun d => 0 < d) (map (fun a => Mass config * a) (c_avg_speed l)).
Proof.
  assert (Hs : Forall (fun s => 0 <= s <= 35) (segment_avg_speed [-1; 1]))
    by (constructor; [simpl; lra | constructor]).
  destruct (constraint_func_returns (InitialBatteryCapacity config) 7 [-1; 1] [100] [0]
              [13] [80] eq_refl eq_refl (le_n 2) (le_n 7) Hs)
    as (Pc & Pe & P & PO & b & a & _ & _ & _ & _ & _ & Hl & _).
  change (set_initial config (InitialBatteryCapacity config)) with config in Hl.
  eexists. split; [exact Hl|]. split.
  - unfold adjacent_zeros. simpl. intros H.
    inversion_clear H as [? ? [H0 _]|? ? H']; [simpl in H0; lra | inversion H'].
  - cbn. intros H. inversion_clear H as [|? ? H0 _]. lra.
Qed.

(** * Further properties of the code *)

(** ** [get_bounds] and the profiles inside it *)

Lemma nth_repeat_lt {A : Type} (x d : A) n i : (i < n)%nat -> nth i (repeat x n) d = x.
Proof.
  revert i; induction n as [|n IH]; intros i Hi; [lia|].
  destruct i; simpl; [reflexivity | apply IH; lia].
Qed.

(** X1.  [get_bounds(N)] has one pair per node only from two nodes on: its ends
    are [(0, 0)], every pair in between is [(0.01, MaxVelocity)], and for
    [N < 2] it still returns the two end pairs. *)
Theorem get_bounds_shape cfg N :
  ((2 <= N)%Z -> length (get_bounds cfg N) = Z.to_nat N)
  /\ ((N < 2)%Z -> get_bounds cfg N = [(0, 0); (0, 0)])
  /\ nth 0 (get_bounds cfg N) (1, 1) = (0, 0)
  /\ last (get_bounds cfg N) (1, 1) = (0, 0)
  /\ (forall i, (0 < i)%nat -> (Z.of_nat i < N - 1)%Z ->
        nth i (get_bounds cfg N) (1, 1) = (0.01, MaxVelocity cfg)).
Proof.
  unfold get_bounds. repeat split.
  - intros HN. rewrite !length_app, repeat_length. simpl. lia.
  - intros HN. replace (Z.to_nat (N - 2)) with 0%nat by lia. reflexivity.
  - rewrite app_assoc. apply last_last.
  - intros i Hi HN. destruct i as [|i]; [lia|]. simpl.
    rewrite app_nth1 by (rewrite repeat_length; lia).
    apply nth_repeat_lt. lia.
Qed.

(** X2.  A profile that respects [get_bounds(N)] has as many nodes as there are
    bounds, starts and ends at rest, has no negative node, and every node
    strictly between the ends lies in [[0.01, MaxVelocity]]. *)
Theorem bounded_profile_shape cfg N v :
  within_bounds (get_bounds cfg N) v ->
  length v = length (get_bounds cfg N)
  /\ nth 0 v 1 = 0 /\ last v 1 = 0
  /\ Forall (fun x => 0 <= x) v
  /\ (forall i, (0 < i)%nat -> (S i < length v)%nat ->
        0.01 <= nth i v 0 <= MaxVelocity cfg).
Proof.
  intros H. pose proof (Forall2_length H) as Hlen.
  apply within_get_bounds in H as (mid & -> & Hmid & Hall).
  split; [now symmetry|]. split; [reflexivity|].
  split; [rewrite app_comm_cons; apply last_last|]. split.
  - constructor; [lra|]. apply Forall_app. split.
    + eapply Forall_impl; [|exact Hall]. intros x Hx. simpl in Hx. lra.
    + constructor; [lra | constructor].
  - intros i Hi Hlt. destruct i as [|i]; [lia|]. simpl in *.
    rewrite length_app in Hlt. simpl in Hlt.
    rewrite app_nth1 by lia.
    rewrite Forall_forall in Hall. apply Hall. apply nth_In. lia.
Qed.

Lemma bounded_profile_shape_witness :
  nth 0 [0; 20; 0] 1 = 0 /\ last [0; 20; 0] 1 = 0.
Proof.
  assert (H : within_bounds (get_bounds config 3) [0; 20; 0]).
  { unfold within_bounds, get_bounds. simpl.
    constructor; [simpl; lra|]. constructor; [simpl; lra|].
    constructor; [simpl; lra|]. constructor. }
  destruct (bounded_profile_shape config 3 [0; 20; 0] H) as (_ & H0 & H1 & _).
  exact (conj H0 H1).
Defined.

(** ** The starting point [main] gives the optimiser *)

Lemma initial_profile_repeat n g : initial_profile n g = repeat (1 * g) (n + 1).
Proof.
  unfold initial_profile. induction (n + 1)%nat; simpl; [reflexivity | now f_equal].
Qed.

(** X3.  The initial guess, the same velocity at every node, lies within the
    bounds handed over with it only for a route of one segment and a guess
    of zero: with two or more segments the end nodes must be 0 and the inner
    nodes at least 0.01, and for an empty route there are two bounds for one
    node. *)
Theorem initial_profile_within_bounds_iff cfg route_len g :
  within_bounds (main_bounds cfg route_len) (initial_profile route_len g)
  <-> route_len = 1%nat /\ g = 0.
Proof.
  rewrite initial_profile_repeat. unfold main_bounds. split.
  - intros H. pose proof (Forall2_length H) as Hlen.
    apply within_get_bounds in H as (mid & Hv & Hmid & Hall).
    rewrite repeat_length in Hlen. unfold get_bounds in Hlen.
    rewrite !length_app, repeat_length in Hlen. simpl in Hlen.
    destruct route_len as [|[|n]].
    + simpl in Hlen. lia.
    + simpl in Hv. injection Hv as Hg _. split; [reflexivity | lra].
    + exfalso. simpl in Hv. injection Hv as Hg Hrest.
      destruct mid as [|y mid]; [cbn [length] in Hmid; lia|].
      simpl in Hrest. injection Hrest as Hy _.
      inversion_clear Hall as [|? ? Hy' _]. lra.
  - intros [-> ->]. unfold within_bounds, get_bounds. simpl.
    constructor; [simpl; lra|]. constructor; [simpl; lra|]. constructor.
Qed.

(** ** [objective] *)

Lemma objective_aligned v seg :
  length seg = pred (length v) -> objective v seg = Returns (Np.sum (segment_dt v seg)).
Proof.
  intros H. unfold objective. now rewrite calculate_dt_segments.
Qed.

Lemma segment_dt_positive ps : forall dx,
  Forall (fun p => 0 <= fst p /\ 0 <= snd p) ps -> Forall (fun x => 0 < x) dx ->
  Forall (fun t => 0 < t)
    (Np.zip_with (fun p x => 2 * x / (fst p + snd p + EPSILON)) ps dx).
Proof.
  pose proof EPSILON_pos as He.
  induction ps as [|p ps IH]; intros [|x dx] Hp Hx; simpl; try constructor.
  - inversion_clear Hp as [|? ? [H0 H1] _]. inversion_clear Hx as [|? ? Hx0 _].
    apply Rdiv_lt_0_compat; lra.
  - apply IH; [now inversion Hp | now inversion Hx].
Qed.

Lemma sum_positive a : a <> [] -> Forall (fun t => 0 < t) a -> 0 < Np.sum a.
Proof.
  intros Hne H. induction H as [|x a Hx Ha IH]; [congruence|].
  simpl. destruct a as [|y a]; [simpl; lra|].
  assert (0 < Np.sum (y :: a)) by (apply IH; discriminate). simpl in *. lra.
Qed.

(** X4.  On a route of at least one segment with positive distances, the trip
    time of a profile without negative nodes is strictly positive: no
    segment is free, even between two nodes at rest. *)
Theorem objective_positive v seg :
  length seg = pred (length v) -> (2 <= length v)%nat ->
  Forall (fun x => 0 <= x) v -> Forall (fun d => 0 < d) seg ->
  exists t, objective v seg = Returns t /\ 0 < t.
Proof.
  intros Hseg Hlen Hv Hd. rewrite objective_aligned by assumption.
  eexists. split; [reflexivity|].
  apply sum_positive.
  - intros E. apply (f_equal (@length R)) in E.
    rewrite segment_dt_length in E by assumption. simpl in E. lia.
  - apply segment_dt_positive; [now apply segments_nonneg | assumption].
Qed.

Lemma objective_positive_witness :
  exists t, objective [0; 0] [100] = Returns t /\ 0 < t.
Proof.
  apply (objective_positive [0; 0] [100] eq_refl (le_n 2)).
  - constructor; [lra|]. constructor; [lra | constructor].
  - constructor; [lra | constructor].
Defined.

Lemma segments_pointwise v : forall w,
  Forall2 Rle v w ->
  Forall2 (fun p q => fst p <= fst q /\ snd p <= snd q) (segments v) (segments w).
Proof.
  induction v as [|x v IH]; intros w H; inversion H as [|? y ? w' Hxy Hvw]; subst;
    [constructor|].
  destruct v as [|x' v]; inversion Hvw as [|? y' ? w'' Hxy' Hvw']; subst;
    [constructor|].
  rewrite !segments_cons. constructor; [simpl; split; assumption|].
  apply IH. assumption.
Qed.

Lemma segment_dt_antitone ps : forall qs dx,
  Forall2 (fun p q => fst p <= fst q /\ snd p <= snd q) ps qs ->
  Forall (fun p => 0 <= fst p /\ 0 <= snd p) ps -> Forall (fun x => 0 <= x) dx ->
  Np.sum (Np.zip_with (fun p x => 2 * x / (fst p + snd p + EPSILON)) qs dx)
  <= Np.sum (Np.zip_with (fun p x => 2 * x / (fst p + snd p + EPSILON)) ps dx).
Proof.
  pose proof EPSILON_pos as He.
  induction ps as [|p ps IH]; intros qs dx H Hp Hx;
    inversion H as [|? q ? qs' [H0 H1] Hrest]; subst; [simpl; lra|].
  destruct dx as [|x dx]; [simpl; lra|].
  inversion_clear Hp as [|? ? [Hp0 Hp1] Hp']. inversion_clear Hx as [|? ? Hx0 Hx'].
  simpl. specialize (IH _ _ Hrest Hp' Hx').
  assert (2 * x / (fst q + snd q + EPSILON) <= 2 * x / (fst p + snd p + EPSILON)).
  { unfold Rdiv. apply Rmult_le_compat_l; [lra|].
    apply Rinv_le_contravar; lra. }
  lra.
Qed.

(** X5.  Driving faster never costs time: if every node of [w] is at least as
    fast as the same node of a profile [v] without negative nodes, the trip
    time of [w] over the same non-negative distances is at most that of
    [v]. *)
Theorem objective_antitone v w seg :
  length seg = pred (length v) ->
  Forall (fun x => 0 <= x) v -> Forall2 Rle v w -> Forall (fun d => 0 <= d) seg ->
  exists tv tw, objective v seg = Returns tv /\ objective w seg = Returns tw /\ tw <= tv.
Proof.
  intros Hseg Hv Hvw Hd.
  pose proof (Forall2_length Hvw) as Hlen.
  rewrite !objective_aligned by congruence.
  do 2 eexists. split; [reflexivity|]. split; [reflexivity|].
  apply segment_dt_antitone;
    [now apply segments_pointwise | now apply segments_nonneg | assumption].
Qed.

Lemma objective_antitone_witness :
  exists tv tw,
    objective [0; 10; 0] [100; 100] = Returns tv
    /\ objective [0; 20; 0] [100; 100] = Returns tw /\ tw <= tv.
Proof.
  apply (objective_antitone [0; 10; 0] [0; 20; 0] [100; 100] eq_refl).
  - constructor; [lra|]. constructor; [lra|]. constructor; [lra | constructor].
  - constructor; [lra|]. constructor; [lra|]. constructor; [lra | constructor].
  - constructor; [lra|]. constructor; [lra | constructor].
Defined.

(** ** Arrays that do not fit *)

Lemma broadcast_mismatch f xs ys :
  length xs <> length ys -> length xs <> 1%nat -> length ys <> 1%nat ->
  Np.broadcast f xs ys = Raises ValueError.
Proof.
  intros H Hx Hy. unfold Np.broadcast.
  destruct (Nat.eqb_spec (length xs) (length ys)) as [E|_]; [contradiction|].
  destruct xs as [|x [|x' xs]]; destruct ys as [|y [|y' ys]]; simpl in *;
    congruence.
Qed.

Lemma calculate_dt_mismatch v seg :
  length seg <> pred (length v) -> length seg <> 1%nat -> pred (length v) <> 1%nat ->
  calculate_dt (Np.but_last v) (Np.from_1 v) seg = Raises ValueError.
Proof.
  intros H H1 Hn. unfold calculate_dt, Np.add, Np.div.
  rewrite broadcast_same by apply slices_same_length. cbn [bind].
  apply broadcast_mismatch; rewrite !length_map;
    rewrite ?zip_with_length, ?but_last_length by apply slices_same_length; auto.
Qed.

(** X6.  A segment array that has neither one entry per segment of the profile
    nor a single entry (and a profile of other than two nodes) makes
    [objective], the constraint function and [extract_profiles] raise
    [ValueError]; the two latter do so before [calculate_power] is called,
    whatever the configuration and the other arrays. *)
Theorem mismatched_segments_raise v seg :
  length seg <> pred (length v) -> length seg <> 1%nat -> pred (length v) <> 1%nat ->
  objective v seg = Raises ValueError
  /\ (forall cfg fuel slope lat lon,
        battery_acc_constraint_func cfg fuel v seg slope lat lon = Raises ValueError
        /\ extract_profiles cfg fuel v seg slope lat lon = Raises ValueError).
Proof.
  intros H H1 Hn. pose proof (calculate_dt_mismatch v seg H H1 Hn) as Hdt.
  split; [unfold objective; now rewrite Hdt|].
  intros cfg fuel slope lat lon.
  unfold battery_acc_constraint_func, battery_acc_locals, extract_profiles, Np.add.
  rewrite broadcast_same by apply slices_same_length. cbn [bind].
  rewrite Hdt. split; reflexivity.
Qed.

Lemma mismatched_segments_raise_witness :
  objective [0; 10; 20; 0] [100; 100] = Raises ValueError.
Proof.
  apply (mismatched_segments_raise [0; 10; 20; 0] [100; 100]); simpl; lia.
Defined.



(** ** What the two components of the constraint function decide *)

(** X8.  On index-aligned arrays the battery component is non-negative exactly
    when the battery trajectory [InitialBatteryCapacity - energy_consumption]
    stays at or above [SafeBatteryLevel] after every segment. *)
Theorem battery_margin_nonneg_iff cfg fuel v seg slope lat lon b a :
  length seg = pred (length v) -> length slope = pred (length v) ->
  battery_acc_constraint_func cfg fuel v seg slope lat lon = Returns (b, a) ->
  exists l,
    battery_acc_locals cfg fuel v seg slope lat lon = Returns l
    /\ (0 <= b <-> Forall (fun t => SafeBatteryLevel cfg <= t) (trajectory_of cfg l)).
Proof.
  intros Hseg Hslope H.
  destruct (constraint_func_aligned_inv _ _ _ _ _ _ _ _ _ Hseg Hslope H)
    as (P & PO & _ & Hl & [Hin Hall] & _).
  eexists. split; [exact Hl|].
  rewrite (locals_battery_profile _ _ _ _ _ _ _ _ Hl) in Hin, Hall.
  unfold trajectory_of. rewrite Forall_map in *. split.
  - intros Hb. eapply Forall_impl; [|exact Hall]. intros e He. simpl in He. lra.
  - intros Hsafe. apply in_map_iff in Hin as (e & <- & Hin).
    rewrite Forall_forall in Hsafe. specialize (Hsafe e Hin). simpl in Hsafe. lra.
Qed.

Lemma battery_margin_nonneg_iff_witness :
  exists l b a,
    battery_acc_constraint_func config 7 [0; 20; 0] [100; 100] [0; 0] [13; 13] [80; 80]
    = Returns (b, a)
    /\ (0 <= b <-> Forall (fun t => SafeBatteryLevel config <= t) (trajectory_of config l)).
Proof.
  destruct (two_segments_run (InitialBatteryCapacity config) 7 0 20 0 100 100 0 0
              [13; 13] [80; 80] (le_n 7))
    as (pc0 & pe0 & pc1 & pe1 & b & a & _ & _ & _ & Hrun & _); [lra | lra |].
  change (set_initial config (InitialBatteryCapacity config)) with config in Hrun.
  destruct (battery_margin_nonneg_iff config 7 [0; 20; 0] [100; 100] [0; 0]
              [13; 13] [80; 80] b a eq_refl eq_refl Hrun) as (l & _ & Hiff).
  exists l, b, a. split; [exact Hrun | exact Hiff].
Defined.

Lemma segments_nth v : forall i,
  (S i < length v)%nat -> nth i (segments v) (0, 0) = (nth i v 0, nth (S i) v 0).
Proof.
  induction v as [|x v IH]; intros i Hi; simpl in Hi; [lia|].
  destruct v as [|y v]; simpl in Hi; [lia|].
  rewrite segments_cons. destruct i as [|i]; [reflexivity|].
  cbn [nth]. rewrite IH by (simpl; lia). reflexivity.
Qed.

Lemma nth_map_any {A B : Type} (f : A -> B) a i d d' :
  (i < length a)%nat -> nth i (map f a) d' = f (nth i a d).
Proof.
  intros H. rewrite (nth_indep _ d' (f d)) by now rewrite length_map.
  apply map_nth.
Qed.

(** The margin of a segment on which the car slows down, over a positive
    distance and with a positive average speed, is positive. *)
Lemma slowing_segment_margin cfg v seg lat lon P PO i :
  0 < Mass cfg ->
  length seg = pred (length v) -> length P = pred (length v) ->
  length PO = pred (length v) -> (S i < length v)%nat ->
  nth (S i) v 0 < nth i v 0 -> 0 <= nth (S i) v 0 -> 0 < nth i seg 0 ->
  0 < nth i (margin_of cfg (locals_of cfg v seg lat lon P PO)) 0.
Proof.
  intros Hm Hseg HP HPO Hi Hslow Hnext Hd.
  destruct (locals_of_shapes cfg v seg lat lon P PO Hseg HP HPO) as (S1 & S2 & S3 & _).
  set (l := locals_of cfg v seg lat lon P PO) in *.
  assert (Hc : length (Np.clip0 (c_PO l)) = pred (length v))
    by (unfold Np.clip0; rewrite length_map; exact S3).
  assert (Hq : length (Np.zip_with Rdiv (Np.clip0 (c_PO l))
                         (map (fun a => Mass cfg * a) (c_avg_speed l))) = pred (length v))
    by (rewrite zip_with_length; rewrite ?length_map; congruence).
  unfold margin_of.
  rewrite (zip_with_nth _ _ _ _ 0 0) by (try congruence; lia).
  rewrite (zip_with_nth _ _ _ _ 0 0) by (rewrite ?length_map; try congruence; lia).
  unfold Np.clip0.
  rewrite (nth_map_lt _ _ _ 0) by lia.
  rewrite (nth_map_lt _ _ _ 0) by lia.
  cbn [c_avg_speed c_acceleration c_PO l locals_of].
  unfold segment_avg_speed, segment_acceleration, segment_dt.
  pose proof (segments_length v) as Hsl.
  rewrite (nth_map_any _ _ _ (0, 0)) by lia.
  rewrite (zip_with_nth _ _ _ _ (0, 0) 0)
    by (rewrite ?zip_with_length; rewrite ?segments_length; try congruence; lia).
  rewrite (zip_with_nth _ _ _ _ (0, 0) 0) by (try congruence; lia).
  rewrite segments_nth by assumption. cbn [fst snd].
  set (x := nth i v 0) in *. set (y := nth (S i) v 0) in *. set (d := nth i seg 0) in *.
  pose proof EPSILON_pos as He.
  assert (Hdt : 0 < 2 * d / (x + y + EPSILON)) by (apply Rdiv_lt_0_compat; lra).
  set (dt := 2 * d / (x + y + EPSILON)) in *.
  assert (Hinv : 0 < / dt) by now apply Rinv_0_lt_compat.
  assert (Hacc : (y - x) / dt < 0) by (unfold Rdiv; nra).
  assert (Hdel : 0 <= Rmax 0 (nth i PO 0) / (Mass cfg * ((x + y) / 2))).
  { apply Rmult_le_pos; [apply Rmax_l|]. left. apply Rinv_0_lt_compat.
    apply Rmult_lt_0_compat; lra. }
  lra.
Qed.

(** X9.  The acceleration component never rejects a profile that respects the
    bounds: for a vehicle of positive mass, a profile within [get_bounds(N)]
    for three or more nodes and positive segment distances, the second
    returned component is strictly positive, because the last segment brakes
    to rest. *)
Theorem bounded_profile_passes_acceleration cfg fuel N v seg slope lat lon b a :
  0 < Mass cfg -> (3 <= N)%Z -> within_bounds (get_bounds cfg N) v ->
  length seg = pred (length v) -> length slope = pred (length v) ->
  Forall (fun d => 0 < d) seg ->
  battery_acc_constraint_func cfg fuel v seg slope lat lon = Returns (b, a) ->
  0 < a.
Proof.
  intros Hm HN Hb Hseg Hslope Hd H.
  destruct (constraint_func_aligned_inv _ _ _ _ _ _ _ _ _ Hseg Hslope H)
    as (P & PO & Hp & _ & _ & Ha).
  apply calculate_power_shape in Hp as [HP HPO];
    [| rewrite segment_acceleration_length, ?segment_avg_speed_length;
       auto using segment_dt_length
     | rewrite segment_avg_speed_length; auto].
  rewrite segment_avg_speed_length in HP, HPO.
  pose proof (Forall2_length Hb) as Hlen.
  apply within_get_bounds in Hb as (mid & Hv & Hmid & Hall).
  assert (Hlv : length v = S (S (length mid)))
    by (rewrite Hv; simpl; rewrite length_app; simpl; lia).
  assert (Hne : (0 < length mid)%nat) by lia.
  set (i := length mid).
  assert (Hi : (S i < length v)%nat) by (unfold i; lia).
  assert (Hx : 0.01 <= nth i v 0).
  { rewrite Hv. unfold i. destruct mid as [|y mid]; [simpl in Hne; lia|].
    cbn [length nth]. rewrite app_nth1 by (simpl; lia).
    rewrite Forall_forall in Hall. apply Hall. apply nth_In. simpl. lia. }
  assert (Hy : nth (S i) v 0 = 0).
  { rewrite Hv. unfold i. cbn [nth]. rewrite app_nth2 by lia.
    now rewrite Nat.sub_diag. }
  assert (Hdi : 0 < nth i seg 0).
  { rewrite Forall_forall in Hd. apply Hd, nth_In. rewrite Hseg. lia. }
  pose proof (slowing_segment_margin cfg v seg lat lon P PO i Hm Hseg HP HPO Hi) as Hpos.
  rewrite Hy in Hpos. specialize (Hpos ltac:(lra) ltac:(lra) Hdi).
  destruct (locals_of_shapes cfg v seg lat lon P PO Hseg HP HPO) as (_ & _ & _ & _ & S5).
  assert (Hin : In (nth i (margin_of cfg (locals_of cfg v seg lat lon P PO)) 0)
                   (margin_of cfg (locals_of cfg v seg lat lon P PO)))
    by (apply nth_In; lia).
  pose proof (greatest_ge _ _ _ Ha Hin). lra.
Qed.

Lemma bounded_profile_passes_acceleration_witness :
  exists b a,
    battery_acc_constraint_func config 7 [0; 20; 0] [100; 100] [0; 0] [13; 13] [80; 80]
    = Returns (b, a) /\ 0 < a.
Proof.
  destruct (two_segments_run (InitialBatteryCapacity config) 7 0 20 0 100 100 0 0
              [13; 13] [80; 80] (le_n 7))
    as (pc0 & pe0 & pc1 & pe1 & b & a & _ & _ & _ & Hrun & _); [lra | lra |].
  change (set_initial config (InitialBatteryCapacity config)) with config in Hrun.
  exists b, a. split; [exact Hrun|].
  assert (Hm : 0 < Mass config) by (simpl; lra).
  assert (Hb : within_bounds (get_bounds config 3) [0; 20; 0]).
  { unfold within_bounds, get_bounds. simpl.
    constructor; [simpl; lra|]. constructor; [simpl; lra|].
    constructor; [simpl; lra|]. constructor. }
  assert (Hd : Forall (fun d => 0 < d) [100; 100])
    by (constructor; [lra|]; constructor; [lra | constructor]).
  exact (bounded_profile_passes_acceleration config 7 3 [0; 20; 0] [100; 100] [0; 0]
           [13; 13] [80; 80] b a Hm ltac:(lia) Hb eq_refl eq_refl Hd Hrun).
Defined.

(** ** [calculate_incident_solarpower] over time *)

Lemma remainder_shift x d : d <> 0 -> Np.remainder (x + d) d = Np.remainder x d.
Proof.
  intros Hd. unfold Np.remainder.
  replace ((x + d) / d) with (x / d + IZR 1) by (field; assumption).
  rewrite Zfloor_addz, plus_IZR. lra.
Qed.

Lemma remainder_range x d : 0 < d -> 0 <= Np.remainder x d < d.
Proof.
  intros Hd. unfold Np.remainder.
  pose proof (Zfloor_bound (x / d)) as [H1 H2].
  set (k := IZR (Zfloor (x / d))) in *.
  assert (Hx : x = x / d * d) by (field; lra).
  split.
  - assert (k * d <= x / d * d) by (apply Rmult_le_compat_r; lra). lra.
  - assert (x / d * d < (k + 1) * d) by (apply Rmult_lt_compat_r; lra). lra.
Qed.

(** X10.  The solar power repeats with the race duration: shifting every time by
    [RaceEndTime - RaceStartTime] (when that is not zero) gives the same
    array. *)
Theorem solarpower_is_periodic cfg globaltime lat lon :
  RaceEndTime cfg - RaceStartTime cfg <> 0 ->
  calculate_incident_solarpower cfg
    (map (fun t => t + (RaceEndTime cfg - RaceStartTime cfg)) globaltime) lat lon
  = calculate_incident_solarpower cfg globaltime lat lon.
Proof.
  intros Hd. unfold calculate_incident_solarpower. rewrite !map_map.
  apply map_ext. intros t. unfold DT. now rewrite remainder_shift.
Qed.

Lemma solarpower_is_periodic_witness :
  calculate_incident_solarpower config
    (map (fun t => t + (RaceEndTime config - RaceStartTime config)) [0; 3600]) [13] [80]
  = calculate_incident_solarpower config [0; 3600] [13] [80].
Proof.
  apply (solarpower_is_periodic config [0; 3600] [13] [80]). simpl. lra.
Defined.

(** X11.  With a non-negative panel coefficient the solar power has one entry per
    time, each between 0 and [1073.099 * PanelArea * PanelEfficiency]; when
    the race has a positive duration the irradiance is taken at a clock time
    in [[RaceStartTime, RaceEndTime)]. *)
Theorem solarpower_bounds cfg globaltime lat lon :
  0 <= PanelArea cfg * PanelEfficiency cfg ->
  length (calculate_incident_solarpower cfg globaltime lat lon) = length globaltime
  /\ Forall (fun p => 0 <= p <= 1073.099 * (PanelArea cfg * PanelEfficiency cfg))
       (calculate_incident_solarpower cfg globaltime lat lon)
  /\ (RaceStartTime cfg < RaceEndTime cfg ->
      Forall (fun t => RaceStartTime cfg
                       <= RaceStartTime cfg + Np.remainder t (DT cfg)
                       < RaceEndTime cfg) globaltime).
Proof.
  intros Hc. split; [apply solarpower_length|]. split.
  - unfold calculate_incident_solarpower, _power_coeff. rewrite !map_map.
    apply Forall_map, Forall_forall. intros t _.
    pose proof (solar_irradiance_pos (RaceStartTime cfg + Np.remainder t (DT cfg))).
    pose proof (solar_irradiance_upper (RaceStartTime cfg + Np.remainder t (DT cfg))).
    split; [apply Rmult_le_pos; lra | apply Rmult_le_compat_r; lra].
  - intros Hrace. apply Forall_forall. intros t _.
    pose proof (remainder_range t (DT cfg)) as Hr. unfold DT in *.
    specialize (Hr ltac:(lra)). lra.
Qed.

Lemma solarpower_bounds_witness :
  Forall (fun p => 0 <= p <= 1073.099 * (PanelArea config * PanelEfficiency config))
    (calculate_incident_solarpower config [0; 40000] [13; 13] [80; 80]).
Proof.
  apply (solarpower_bounds config [0; 40000] [13; 13] [80; 80]). simpl. lra.
Defined.

(** ** What [calculate_power] returns *)

Lemma net_power_array_nth cfg speed : forall acceleration slope Pc Pe i,
  length acceleration = length speed -> length slope = length speed ->
  length Pc = length speed -> length Pe = length speed -> (i < length speed)%nat ->
  nth i (net_power_array cfg speed acceleration slope Pc Pe) 0
  = net_power_of cfg (nth i speed 0) (nth i acceleration 0) (nth i slope 0)
      (nth i Pc 0) (nth i Pe 0).
Proof.
  unfold net_power_array, tou_of, speed2_of, Np.clip0.
  induction speed as [|v speed IH];
    intros [|a acc] [|s slope] [|pc Pc] [|pe Pe] i Ha Hs Hc He Hi;
    simpl in Ha, Hs, Hc, He, Hi; try discriminate; try lia.
  destruct i as [|i].
  - reflexivity.
  - cbn [map Np.zip_with nth]. apply IH; lia.
Qed.

Lemma output_power_array_nth cfg speed : forall i,
  (i < length speed)%nat ->
  nth i (output_power_array cfg speed) 0 = output_power_of cfg (nth i speed 0).
Proof.
  unfold output_power_array, tou_of.
  induction speed as [|v speed IH]; intros i Hi; simpl in Hi; [lia|].
  destruct i as [|i]; [reflexivity|]. cbn [map Np.zip_with nth]. apply IH. lia.
Qed.

(** The loop is left only by a pass in which every element has converged,
    and the losses returned are those of that pass. *)
Lemma winding_loop_exit cfg fuel : forall tou speed2 Tw_i Pc Pe,
  length speed2 = length tou -> length Tw_i = length tou ->
  winding_loop cfg fuel tou speed2 Tw_i = Returns (Pc, Pe) ->
  exists Tw,
    length Tw = length tou
    /\ forallb (fun c => c) (cond_of cfg tou speed2 Tw) = true
    /\ Pc = map w_Pc (pass_of cfg tou speed2 Tw)
    /\ Pe = map w_Pe (pass_of cfg tou speed2 Tw).
Proof.
  induction fuel as [|fuel IH]; intros tou speed2 Tw_i Pc Pe H2 HT H; [discriminate|].
  rewrite winding_loop_S in H.
  destruct (forallb _ _) eqn:Hc.
  - injection H as <- <-. exists Tw_i. auto.
  - apply IH in H; [exact H | exact H2 |].
    assert (Hp : length (pass_of cfg tou speed2 Tw_i) = length tou)
      by (unfold pass_of; rewrite zip_with_length; rewrite length_combine; lia).
    unfold where_of. rewrite zip_with_length; rewrite length_combine;
      unfold cond_of; rewrite zip_with_length; lia.
Qed.

Lemma pass_of_nth cfg tou : forall speed2 Tw i,
  length speed2 = length tou -> length Tw = length tou -> (i < length tou)%nat ->
  nth i (pass_of cfg tou speed2 Tw) (winding_pass cfg 0 0 0)
  = winding_pass cfg (nth i tou 0) (nth i speed2 0) (nth i Tw 0).
Proof.
  unfold pass_of.
  induction tou as [|t tou IH]; intros [|s speed2] [|T Tw] i H2 HT Hi;
    simpl in H2, HT, Hi; try discriminate; try lia.
  destruct i as [|i]; [reflexivity|]. cbn [combine Np.zip_with nth]. apply IH; lia.
Qed.

Lemma cond_of_all cfg tou : forall speed2 Tw i,
  length speed2 = length tou -> length Tw = length tou -> (i < length tou)%nat ->
  forallb (fun c => c) (cond_of cfg tou speed2 Tw) = true ->
  Rabs (w_Tw (winding_pass cfg (nth i tou 0) (nth i speed2 0) (nth i Tw 0)) - nth i Tw 0)
  < 0.001.
Proof.
  unfold cond_of, pass_of.
  induction tou as [|t tou IH]; intros [|s speed2] [|T Tw] i H2 HT Hi Hall;
    simpl in H2, HT, Hi; try discriminate; try lia.
  cbn [combine Np.zip_with forallb fst snd] in Hall.
  apply andb_true_iff in Hall as [H0 Hrest].
  destruct i as [|i]; [now apply ltb_true in H0|].
  cbn [nth]. apply IH; auto; lia.
Qed.

(** X12.  When [calculate_power] returns on index-aligned arrays, there is a
    winding temperature for every element which one more pass changes by
    less than 0.001, and the returned net power is the clipped sum of output
    power, windage, the copper and eddy losses at that temperature, and the
    power of acceleration and slope; the returned output power is
    [(frictional torque + drag torque) * speed / R_Out]. *)
Theorem calculate_power_postcondition cfg fuel speed acceleration slope P PO :
  length acceleration = length speed -> length slope = length speed ->
  calculate_power cfg fuel speed acceleration slope = Returns (P, PO) ->
  exists Tw,
    length Tw = length speed
    /\ forall i, (i < length speed)%nat ->
         let v := nth i speed 0 in
         let w := winding_pass cfg (_frictional_tou cfg + _drag_coeff_wR2 cfg * v ^ 2)
                    (v ^ 2) (nth i Tw 0) in
         Rabs (w_Tw w - nth i Tw 0) < 0.001
         /\ nth i P 0
            = net_power_of cfg v (nth i acceleration 0) (nth i slope 0) (w_Pc w) (w_Pe w)
         /\ nth i PO 0 = output_power_of cfg v.
Proof.
  intros Ha Hs H.
  assert (Ht : length (tou_of cfg speed) = length speed)
    by (unfold tou_of; now rewrite !length_map).
  assert (H2 : length (speed2_of speed) = length (tou_of cfg speed))
    by (unfold speed2_of; rewrite length_map; congruence).
  destruct (winding_loop cfg fuel (tou_of cfg speed) (speed2_of speed)
              (map (fun _ => Ta cfg) speed)) as [[Pc Pe]| |] eqn:Hloop;
    [| rewrite calculate_power_unfold, Hloop in H; discriminate ..].
  pose proof Hloop as Hshape.
  apply winding_loop_shape in Hshape as [HPc HPe];
    [| exact H2 | rewrite length_map; congruence].
  rewrite Ht in HPc, HPe.
  rewrite (calculate_power_aligned cfg fuel speed acceleration slope Pc Pe) in H;
    try assumption.
  injection H as <- <-.
  apply winding_loop_exit in Hloop as (Tw & HT & Hall & EPc & EPe);
    [| exact H2 | rewrite length_map; congruence].
  exists Tw. split; [congruence|].
  intros i Hi v w.
  assert (Hi' : (i < length (tou_of cfg speed))%nat) by lia.
  assert (Etou : nth i (tou_of cfg speed) 0
                 = _frictional_tou cfg + _drag_coeff_wR2 cfg * v ^ 2).
  { unfold tou_of. rewrite !map_map.
    rewrite (nth_map_any _ _ _ 0) by assumption. reflexivity. }
  assert (Es2 : nth i (speed2_of speed) 0 = v ^ 2).
  { unfold speed2_of. rewrite (nth_map_any _ _ _ 0) by assumption. reflexivity. }
  pose proof (pass_of_nth cfg _ _ _ i H2 HT Hi') as Hpass.
  rewrite Etou, Es2 in Hpass. fold w in Hpass.
  split; [|split].
  - pose proof (cond_of_all cfg _ _ _ i H2 HT Hi' Hall) as Hc.
    rewrite Etou, Es2 in Hc. exact Hc.
  - change (nth i (net_power_array cfg speed acceleration slope Pc Pe) 0 = 
            net_power_of cfg v (nth i acceleration 0) (nth i slope 0) (w_Pc w) (w_Pe w)).
    rewrite net_power_array_nth by assumption.
    assert (Hlp : (i < length (pass_of cfg (tou_of cfg speed) (speed2_of speed) Tw))%nat)
      by (unfold pass_of; rewrite zip_with_length; rewrite length_combine; lia).
    rewrite EPc, EPe.
    rewrite !(nth_map_any _ _ _ (winding_pass cfg 0 0 0)) by assumption.
    rewrite Hpass. reflexivity.
  - apply output_power_array_nth. assumption.
Qed.

Lemma calculate_power_postcondition_witness :
  exists P PO, calculate_power config 7 [5; 5] [2; -2] [0; 1] = Returns (P, PO)
               /\ nth 0 PO 0 = output_power_of config 5.
Proof.
  destruct (calculate_power_returns 7 [5; 5] [2; -2] [0; 1]) as (Pc & Pe & P & PO & H);
    [constructor; [lra|]; constructor; [lra | constructor]
    | lia | reflexivity | reflexivity |].
  destruct H as (_ & _ & _ & _ & H).
  destruct (calculate_power_postcondition config 7 [5; 5] [2; -2] [0; 1] P PO
              eq_refl eq_refl H) as (Tw & _ & Hi).
  exists P, PO. split; [exact H|]. apply (Hi 0%nat). simpl. lia.
Defined.

Lemma broadcast_not_running f xs ys : Np.broadcast f xs ys <> Running.
Proof.
  unfold Np.broadcast. destruct (Nat.eqb _ _); [discriminate|].
  destruct xs as [|? [|? ?]]; destruct ys as [|? [|? ?]]; discriminate.
Qed.

Lemma bind_broadcast_running {B : Type} f xs ys (k : Np.ndarray -> outcome B) :
  bind (Np.broadcast f xs ys) k = Running ->
  exists a, Np.broadcast f xs ys = Returns a /\ k a = Running.
Proof.
  pose proof (broadcast_not_running f xs ys) as Hn.
  destruct (Np.broadcast f xs ys) as [a| |]; cbn [bind]; intros H;
    [eauto | discriminate | contradiction].
Qed.

Lemma calculate_power_running cfg fuel speed acceleration slope :
  calculate_power cfg fuel speed acceleration slope = Running
  <-> winding_loop cfg fuel (tou_of cfg speed) (speed2_of speed)
        (map (fun _ => Ta cfg) speed) = Running.
Proof.
  rewrite calculate_power_unfold.
  destruct (winding_loop _ _ _ _ _) as [[Pc Pe]| |]; cbn [bind];
    [| split; discriminate | split; reflexivity].
  cbv zeta. split; [|discriminate]. intros H. exfalso.
  unfold Np.add, Np.mul in H.
  apply bind_broadcast_running in H as (f & _ & H).
  apply bind_broadcast_running in H as (P_acc & _ & H).
  apply bind_broadcast_running in H as (p1 & _ & H).
  apply bind_broadcast_running in H as (p2 & _ & H).
  apply bind_broadcast_running in H as (p3 & _ & H).
  apply bind_broadcast_running in H as (P_net & _ & H).
  discriminate H.
Qed.

(** X13.  Acceleration and slope have no part in the temperature loop nor in the
    output power: whether a call is still iterating depends on the speed
    array alone, and two calls on the same speeds that return give the same
    output power. *)
Theorem output_power_ignores_acceleration cfg fuel speed a1 s1 a2 s2 :
  (calculate_power cfg fuel speed a1 s1 = Running
   <-> calculate_power cfg fuel speed a2 s2 = Running)
  /\ (forall P1 PO1 P2 PO2,
        calculate_power cfg fuel speed a1 s1 = Returns (P1, PO1) ->
        calculate_power cfg fuel speed a2 s2 = Returns (P2, PO2) ->
        PO1 = PO2 /\ PO1 = output_power_array cfg speed).
Proof.
  split; [rewrite !calculate_power_running; reflexivity|].
  intros P1 PO1 P2 PO2 H1 H2.
  rewrite calculate_power_unfold in H1, H2.
  bind_inv H1. cbv zeta in H1. bind_inv H1. injection H1 as _ <-.
  cbn [bind] in H2. cbv zeta in H2. bind_inv H2. injection H2 as _ <-.
  split; reflexivity.
Qed.

Lemma losses_ok_nth Pc Pe i :
  losses_ok Pc Pe -> (i < length Pc)%nat ->
  0 <= nth i Pc 0 /\ 0 <= nth i Pe 0 /\ nth i Pc 0 + nth i Pe 0 <= 77.
Proof.
  intros H. revert i. induction H as [|pc pe Pc Pe H0 _ IH]; intros i Hi;
    simpl in Hi; [lia|].
  destruct i as [|i]; [exact H0 | apply IH; lia].
Qed.

(** X14.  With the constants of [config.py], speeds between 0 and [MaxVelocity]
    and index-aligned arrays, [calculate_power] returns, and the motor
    losses add between 0 and 77 W to the mechanical power before clipping:
    each net power lies between the clipped mechanical power and the
    clipped mechanical power plus 77. *)
Theorem net_power_bounds_in_range fuel speed acceleration slope :
  Forall (fun v => 0 <= v <= MaxVelocity config) speed -> (7 <= fuel)%nat ->
  length acceleration = length speed -> length slope = length speed ->
  exists P PO,
    calculate_power config fuel speed acceleration slope = Returns (P, PO)
    /\ forall i, (i < length speed)%nat ->
         let mech := mechanical_power_of config (nth i speed 0)
                       (nth i acceleration 0) (nth i slope 0) in
         Rmax 0 mech <= nth i P 0 <= Rmax 0 (mech + 77).
Proof.
  intros Hv Hf Ha Hs.
  destruct (calculate_power_returns fuel speed acceleration slope Hv Hf Ha Hs)
    as (Pc & Pe & P & PO & Hloop & Hl & HPc & HPe & Hp).
  exists P, PO. split; [exact Hp|].
  rewrite (calculate_power_aligned config fuel speed acceleration slope Pc Pe) in Hp;
    try assumption.
  injection Hp as <- _. intros i Hi mech.
  change (Rmax 0 mech
          <= nth i (net_power_array config speed acceleration slope Pc Pe) 0
          <= Rmax 0 (mech + 77)).
  rewrite net_power_array_nth by assumption.
  destruct (losses_ok_nth Pc Pe i Hl ltac:(lia)) as (H0 & H1 & H2).
  unfold net_power_of, mech, mechanical_power_of.
  split; apply Rle_max_compat_l; lra.
Qed.

Lemma net_power_bounds_in_range_witness :
  exists P PO,
    calculate_power config 7 [0; 17.5; 35] [1; 0; -1] [0; 2; -2] = Returns (P, PO)
    /\ Rmax 0 (mechanical_power_of config 35 (-1) (-2)) <= nth 2 P 0.
Proof.
  assert (Hv : Forall (fun v => 0 <= v <= MaxVelocity config) [0; 17.5; 35]).
  { constructor; [simpl; lra|]. constructor; [simpl; lra|].
    constructor; [simpl; lra | constructor]. }
  destruct (net_power_bounds_in_range 7 [0; 17.5; 35] [1; 0; -1] [0; 2; -2]
              Hv (le_n 7) eq_refl eq_refl) as (P & PO & Hp & Hi).
  exists P, PO. split; [exact Hp|]. apply (Hi 2%nat). simpl. lia.
Defined.

(** ** The table of [extract_profiles] *)

Lemma extract_profiles_aligned cfg fuel v seg slope lat lon :
  length seg = pred (length v) -> length slope = pred (length v) ->
  extract_profiles cfg fuel v seg slope lat lon =
  ' (P, PO) <- calculate_power cfg fuel (segment_avg_speed v)
                 (segment_acceleration v (segment_dt v seg)) slope ;;
  Returns (report_of cfg v seg lat lon P).
Proof.
  intros Hseg Hslope.
  pose proof (segment_dt_length v seg Hseg) as Hd.
  unfold extract_profiles.
  pose proof (slices_same_length v) as Hv.
  unfold Np.add at 1. rewrite broadcast_same by assumption. cbn [bind].
  rewrite calculate_dt_segments by assumption. cbn [bind].
  unfold Np.sub at 1. rewrite broadcast_same by (symmetry; assumption). cbn [bind].
  unfold Np.div. rewrite broadcast_same
    by (rewrite zip_with_length, Hd, from_1_length; auto).
  cbn [bind]. rewrite avg_speed_segments, acceleration_segments.
  fold (segments v). fold (segment_avg_speed v).
  fold (segment_acceleration v (segment_dt v seg)).
  destruct (calculate_power _ _ _ _ _) as [[P PO]| |] eqn:Hp; [|reflexivity ..].
  apply calculate_power_shape in Hp as [HP _];
    [| rewrite segment_acceleration_length, ?segment_avg_speed_length; auto
     | rewrite segment_avg_speed_length; auto].
  rewrite segment_avg_speed_length in HP.
  cbn [bind]. unfold Np.mul, Np.sub.
  rewrite broadcast_same by congruence. cbn [bind].
  rewrite broadcast_same by (rewrite solarpower_length, cumsum_length; congruence).
  cbn [bind].
  rewrite broadcast_same; [reflexivity|].
  rewrite !cumsum_length, !length_map, !zip_with_length;
    rewrite ?solarpower_length, ?cumsum_length; congruence.
Qed.

Lemma extract_profiles_aligned_inv cfg fuel v seg slope lat lon r :
  length seg = pred (length v) -> length slope = pred (length v) ->
  extract_profiles cfg fuel v seg slope lat lon = Returns r ->
  exists P PO,
    calculate_power cfg fuel (segment_avg_speed v)
      (segment_acceleration v (segment_dt v seg)) slope = Returns (P, PO)
    /\ length P = pred (length v) /\ length PO = pred (length v)
    /\ r = report_of cfg v seg lat lon P.
Proof.
  intros Hseg Hslope H.
  rewrite extract_profiles_aligned in H by assumption.
  destruct (calculate_power _ _ _ _ _) as [[P PO]| |] eqn:Hp; try discriminate H.
  injection H as <-. exists P, PO.
  apply calculate_power_shape in Hp as HS;
    [| rewrite segment_acceleration_length, ?segment_avg_speed_length;
       auto using segment_dt_length
     | rewrite segment_avg_speed_length; auto].
  rewrite segment_avg_speed_length in HS. tauto.
Qed.

(** X15.  For a profile of at least one node and index-aligned arrays, the table
    has one row per node in each of its seven columns; the first row has
    distance 0, time 0, the initial charge as battery percentage and no
    value for acceleration, energy consumption and energy gain; the
    velocity column is the profile, and the last distance is the sum of the
    segment distances. *)
Theorem extract_profiles_table cfg fuel v seg slope lat lon r :
  (1 <= length v)%nat ->
  length seg = pred (length v) -> length slope = pred (length v) ->
  extract_profiles cfg fuel v seg slope lat lon = Returns r ->
  (length (distances r) = length v /\ length (velocity r) = length v
   /\ length (acceleration_profile r) = length v
   /\ length (battery_profile r) = length v
   /\ length (energy_consumption_profile r) = length v
   /\ length (energy_gain_profile r) = length v
   /\ length (cumulative_time r) = length v)
  /\ (nth 0 (distances r) 1 = 0 /\ nth 0 (cumulative_time r) 1 = 0
      /\ nth 0 (battery_profile r) 0
         = InitialBatteryCapacity cfg * 100 / BatteryCapacity cfg
      /\ nth 0 (acceleration_profile r) (Some 0) = None
      /\ nth 0 (energy_consumption_profile r) (Some 0) = None
      /\ nth 0 (energy_gain_profile r) (Some 0) = None)
  /\ velocity r = v
  /\ last (distances r) 0 = Np.sum seg.
Proof.
  intros Hv Hseg Hslope H.
  destruct (extract_profiles_aligned_inv _ _ _ _ _ _ _ _ Hseg Hslope H)
    as (P & PO & _ & HP & _ & ->).
  pose proof (segment_dt_length v seg Hseg) as Hd.
  assert (Hsol : length (calculate_incident_solarpower cfg
                           (Np.cumsum (segment_dt v seg)) lat lon) = pred (length v))
    by (rewrite solarpower_length, cumsum_length; exact Hd).
  assert (Hpd : length (Np.zip_with Rmult P (segment_dt v seg)) = pred (length v))
    by (rewrite zip_with_length; congruence).
  assert (Hsd : length (Np.zip_with Rmult
                          (calculate_incident_solarpower cfg
                             (Np.cumsum (segment_dt v seg)) lat lon)
                          (segment_dt v seg)) = pred (length v))
    by (rewrite zip_with_length; congruence).
  cbn [report_of distances velocity acceleration_profile battery_profile
       energy_consumption_profile energy_gain_profile cumulative_time].
  split; [|split; [|split]].
  - assert (Hnet : length (Np.zip_with Rminus
                             (Np.cumsum (map (fun x => x / 3600)
                                           (Np.zip_with Rmult P (segment_dt v seg))))
                             (Np.cumsum (map (fun x => x / 3600)
                                           (Np.zip_with Rmult
                                              (calculate_incident_solarpower cfg
                                                 (Np.cumsum (segment_dt v seg)) lat lon)
                                              (segment_dt v seg)))))
                    = pred (length v))
      by (rewrite zip_with_length; rewrite !cumsum_length, !length_map; congruence).
    pose proof (segment_acceleration_length v (segment_dt v seg) Hd) as Hacc.
    cbn [length]. rewrite !length_map. cbn [length]. rewrite !length_map.
    rewrite Hnet, Hacc, !cumsum_length, Hseg, Hd, Hpd, Hsd.
    repeat split; lia.
  - repeat split; reflexivity.
  - reflexivity.
  - unfold Np.cumsum. rewrite last_cumsum_from. lra.
Qed.

Lemma extract_profiles_table_witness :
  exists r,
    extract_profiles config 7 [0; 20; 0] [100; 100] [0; 0] [13; 13] [80; 80] = Returns r
    /\ length (battery_profile r) = 3%nat /\ last (distances r) 0 = 100 + (100 + 0).
Proof.
  assert (Hs : Forall (fun s => 0 <= s <= 35) (segment_avg_speed [0; 20; 0]))
    by (constructor; [simpl; lra|]; constructor; [simpl; lra | constructor]).
  destruct (extract_profiles_returns 7 [0; 20; 0] [100; 100] [0; 0] [13; 13] [80; 80]
              eq_refl eq_refl (le_n 7) Hs) as (r & Hr).
  destruct (extract_profiles_table config 7 [0; 20; 0] [100; 100] [0; 0] [13; 13]
              [80; 80] r (le_S _ _ (le_S _ _ (le_n 1))) eq_refl eq_refl Hr)
    as ((_ & _ & _ & Hb & _) & _ & _ & Hlast).
  exists r. split; [exact Hr|]. split; [exact Hb | exact Hlast].
Defined.

Lemma cumsum_from_difference P : forall SolP dt a b c,
  a - b = c / 3600 ->
  Np.zip_with Rminus
    (Np.cumsum_from a (map (fun x => x / 3600) (Np.zip_with Rmult P dt)))
    (Np.cumsum_from b (map (fun x => x / 3600) (Np.zip_with Rmult SolP dt)))
  = map (fun x => x / 3600)
      (Np.cumsum_from c (Np.zip_with Rmult (Np.zip_with Rminus P SolP) dt)).
Proof.
  induction P as [|p P IH]; intros [|s SolP] [|d dt] a b c H; try reflexivity.
  cbn [Np.zip_with map Np.cumsum_from]. f_equal; [lra|].
  apply IH. lra.
Qed.

(** X16.  The battery column of the table is the trajectory the constraint
    function checks: on index-aligned arrays, whenever [extract_profiles]
    returns, the constraint function has reached its trajectory too, and
    the column is the initial charge followed by that trajectory, as a
    percentage of [BatteryCapacity]. *)
Theorem report_battery_is_constraint_trajectory cfg fuel v seg slope lat lon r :
  length seg = pred (length v) -> length slope = pred (length v) ->
  extract_profiles cfg fuel v seg slope lat lon = Returns r ->
  exists l,
    battery_acc_locals cfg fuel v seg slope lat lon = Returns l
    /\ battery_profile r
       = map (fun x => x * 100 / BatteryCapacity cfg)
           (InitialBatteryCapacity cfg :: trajectory_of cfg l).
Proof.
  intros Hseg Hslope H.
  destruct (extract_profiles_aligned_inv _ _ _ _ _ _ _ _ Hseg Hslope H)
    as (P & PO & Hp & _ & _ & ->).
  exists (locals_of cfg v seg lat lon P PO). split.
  - rewrite battery_acc_locals_aligned by assumption. now rewrite Hp.
  - cbn [report_of battery_profile]. do 2 f_equal.
    unfold trajectory_of. cbn [locals_of c_energy_consumption].
    f_equal. unfold Np.cumsum. apply cumsum_from_difference. lra.
Qed.

Lemma report_battery_is_constraint_trajectory_witness :
  exists r l,
    extract_profiles config 7 [0; 20; 0] [100; 100] [0; 0] [13; 13] [80; 80] = Returns r
    /\ battery_acc_locals config 7 [0; 20; 0] [100; 100] [0; 0] [13; 13] [80; 80]
       = Returns l
    /\ battery_profile r
       = map (fun x => x * 100 / BatteryCapacity config)
           (InitialBatteryCapacity config :: trajectory_of config l).
Proof.
  assert (Hs : Forall (fun s => 0 <= s <= 35) (segment_avg_speed [0; 20; 0]))
    by (constructor; [simpl; lra|]; constructor; [simpl; lra | constructor]).
  destruct (extract_profiles_returns 7 [0; 20; 0] [100; 100] [0; 0] [13; 13] [80; 80]
              eq_refl eq_refl (le_n 7) Hs) as (r & Hr).
  destruct (report_battery_is_constraint_trajectory config 7 [0; 20; 0] [100; 100]
              [0; 0] [13; 13] [80; 80] r eq_refl eq_refl Hr) as (l & Hl & Hb).
  exists r, l. auto.
Defined.

(** ** accurate_solarprofile.py *)

Lemma broadcast_compatible f xs ys :
  length xs = length ys \/ length xs = 1%nat \/ length ys = 1%nat ->
  exists r, Np.broadcast f xs ys = Returns r
            /\ length r = if Nat.eqb (length xs) 1 then length ys else length xs.
Proof.
  intros H. unfold Np.broadcast.
  destruct (Nat.eqb_spec (length xs) (length ys)) as [E|NE].
  - eexists. split; [reflexivity|]. rewrite zip_with_length by assumption.
    destruct (Nat.eqb_spec (length xs) 1); congruence.
  - destruct H as [H|[H|H]]; [contradiction | |].
    + destruct xs as [|x [|x' xs]]; try discriminate H.
      eexists. split; [reflexivity|]. now rewrite length_map.
    + destruct ys as [|y [|y' ys]]; try discriminate H.
      destruct xs as [|x [|x' xs]]; try (simpl in NE; congruence);
        (eexists; split; [reflexivity|]; now rewrite ?length_map).
Qed.

Lemma standard_meridian_length lon :
  length (Accurate.standard_meridian_of lon) = length lon.
Proof. unfold Accurate.standard_meridian_of. now rewrite !length_map. Qed.

(** X17.  The sun-position version of [calculate_incident_solarpower] computes
    the geometric irradiance and discards it: whatever the two clock
    readings, it returns exactly what the version of [solar.py] returns when
    the latitude and longitude arrays can be broadcast together, and raises
    [ValueError] when they cannot. *)
Theorem accurate_solarpower_is_gaussian cfg date time globaltime lat lon :
  (length lat = length lon \/ length lat = 1%nat \/ length lon = 1%nat ->
   Accurate.calculate_incident_solarpower cfg date time globaltime lat lon
   = Returns (calculate_incident_solarpower cfg globaltime lat lon))
  /\ (length lat <> length lon -> length lat <> 1%nat -> length lon <> 1%nat ->
      Accurate.calculate_incident_solarpower cfg date time globaltime lat lon
      = Raises ValueError).
Proof.
  unfold Accurate.calculate_incident_solarpower, Accurate.solar_local_time,
    Accurate.solar_irradiance, Accurate.hour_angle.
  cbv zeta.
  assert (Es : Np.sub (Accurate.standard_meridian_of lon) lon
               = Returns (Np.zip_with Rminus (Accurate.standard_meridian_of lon) lon))
    by (apply broadcast_same, standard_meridian_length).
  rewrite Es. cbn [bind].
  set (T_s := map _ (Np.zip_with Rminus (Accurate.standard_meridian_of lon) lon)).
  assert (HT : length T_s = length lon).
  { unfold T_s. rewrite length_map, zip_with_length, standard_meridian_length;
      auto using standard_meridian_length. }
  set (A := map _ (map cos (map Np.radians lat))).
  set (C := map cos (map Np.radians (map _ T_s))).
  set (S := map _ (map sin (map Np.radians lat))).
  assert (HA : length A = length lat) by (unfold A; now rewrite !length_map).
  assert (HC : length C = length lon) by (unfold C; now rewrite !length_map).
  assert (HS : length S = length lat) by (unfold S; now rewrite !length_map).
  unfold Np.mul, Np.add. split.
  - intros H.
    destruct (broadcast_compatible Rmult A C) as (c & Ec & Hc);
      [rewrite HA, HC; exact H|].
    rewrite Ec. cbn [bind].
    destruct (broadcast_compatible Rplus c S) as (s & Esum & _).
    { rewrite Hc, HA, HC, HS. destruct (Nat.eqb_spec (length lat) 1); auto. }
    rewrite Esum. reflexivity.
  - intros H H1 H2. rewrite broadcast_mismatch; [reflexivity | | |]; congruence.
Qed.

(** X18.  The sun declination stays within 23.45 degrees and the equation of time
    within 21.21 minutes, for every day number. *)
Theorem declination_and_equation_of_time_bounds N :
  -23.45 <= Accurate.sun_declination_angle N <= 23.45
  /\ -21.21 <= Accurate.equation_of_time (Accurate.calculate_B N) <= 21.21.
Proof.
  unfold Accurate.sun_declination_angle, Accurate.equation_of_time. split.
  - match goal with |- context [sin ?x] => pose proof (SIN_bound x) end. lra.
  - set (B := Accurate.calculate_B N).
    pose proof (COS_bound (Np.radians B)). pose proof (SIN_bound (Np.radians B)).
    pose proof (COS_bound (Np.radians (2 * B))).
    pose proof (SIN_bound (Np.radians (2 * B))). lra.
Qed.



Lemma wrap_int64_range z :
  (Accurate.INT64_MIN <= Accurate.wrap_int64 z <= Accurate.INT64_MAX)%Z.
Proof.
  unfold Accurate.INT64_MIN, Accurate.INT64_MAX, Accurate.wrap_int64.
  pose proof (Z.mod_pos_bound (z + 2 ^ 63) (2 ^ 64) ltac:(lia)). lia.
Qed.

Lemma astype_int_range x :
  (Accurate.INT64_MIN <= Accurate.astype_int x <= Accurate.INT64_MAX)%Z.
Proof.
  unfold Accurate.astype_int. cbv zeta.
  destruct (_ && _)%bool eqn:Hb.
  - apply andb_true_iff in Hb as [H1 H2]. lia.
  - unfold Accurate.INT64_MIN, Accurate.INT64_MAX. lia.
Qed.




Lemma trunc_of_integer (n : Z) x :
  (0 <= n)%Z -> IZR n <= x < IZR n + 1 -> Accurate.trunc x = n.
Proof.
  intros Hn Hx. unfold Accurate.trunc.
  assert (0 <= IZR n) by (apply IZR_le; exact Hn).
  destruct (Rle_dec 0 x) as [_|Hneg]; [|lra].
  apply Zfloor_eq. lra.
Qed.

(** X23.  Beyond the range of [int64] the product by 15 wraps around: the
    quotient of the longitude [3e19] still converts, to [2 * 10 ^ 18], and the
    standard meridian computed from it is [-6893488147419103232]; at the
    longitude 80 it is 75. *)
Theorem standard_meridian_wraps :
  Accurate.standard_meridian_of [3 * 10 ^ 19; 80]
  = [IZR (-6893488147419103232); 75].
Proof.
  unfold Accurate.standard_meridian_of. cbn [map].
  assert (E1 : Accurate.astype_int (3 * 10 ^ 19 / 15) = 2000000000000000000%Z).
  { unfold Accurate.astype_int. cbv zeta.
    rewrite (trunc_of_integer 2000000000000000000) by (try lia; lra).
    reflexivity. }
  assert (E2 : Accurate.astype_int (80 / 15) = 5%Z).
  { unfold Accurate.astype_int. cbv zeta.
    rewrite (trunc_of_integer 5) by (try lia; lra).
    reflexivity. }
  rewrite E1, E2. reflexivity.
Qed.

Lemma geometric_factor_bound phi delta omega :
  -1 <= cos phi * cos delta * cos omega + sin phi * sin delta <= 1.
Proof.
  pose proof (COS_bound omega) as Hc.
  pose proof (COS_bound (phi - delta)) as H1.
  pose proof (COS_bound (phi + delta)) as H2.
  rewrite cos_minus in H1. rewrite cos_plus in H2.
  set (a := cos phi * cos delta) in *. set (b := sin phi * sin delta) in *.
  set (c := cos omega) in *.
  split; nra.
Qed.

(** X20.  The geometric irradiance of index-aligned latitude and hour-angle
    arrays has one entry per point, each between [-G_s_prime] and
    [G_s_prime] for a non-negative [G_s_prime]: it is not clipped at zero,
    and on the equator at equinox with the sun at the nadir it is
    [-G_s_prime]. *)
Theorem geometric_irradiance_bounds G lat declination omega :
  0 <= G -> length lat = length omega ->
  (exists r, Accurate.solar_irradiance G lat declination omega = Returns r
             /\ length r = length lat
             /\ Forall (fun g => - G <= g <= G) r)
  /\ Accurate.solar_irradiance G [0] 0 [180] = Returns [- G].
Proof.
  intros HG Hlen. split.
  - unfold Accurate.solar_irradiance, Np.mul, Np.add.
    rewrite broadcast_same by (rewrite !length_map; exact Hlen). cbn [bind].
    rewrite broadcast_same
      by (rewrite zip_with_length; rewrite !length_map; congruence).
    cbn [bind]. eexists. split; [reflexivity|]. split.
    + rewrite length_map, zip_with_length; rewrite zip_with_length;
        rewrite !length_map; congruence.
    + clear Hlen. revert omega.
      induction lat as [|phi lat IH]; intros [|w omega]; try constructor.
      * cbn [map Np.zip_with].
        pose proof (geometric_factor_bound (Np.radians phi) (Np.radians declination)
                      (Np.radians w)) as Hb.
        split; nra.
      * apply IH.
  - unfold Accurate.solar_irradiance, Np.mul, Np.add, Np.broadcast, Np.radians.
    cbn [map length Nat.eqb Np.zip_with bind].
    replace (0 * PI / 180) with 0 by lra.
    replace (180 * PI / 180) with PI by field.
    rewrite cos_0, sin_0, cos_PI. do 2 f_equal. ring.
Qed.

Lemma geometric_irradiance_bounds_witness :
  exists r, Accurate.solar_irradiance Accurate.G_s_prime [13; -20] 23 [0; 45] = Returns r
            /\ Forall (fun g => - Accurate.G_s_prime <= g <= Accurate.G_s_prime) r.
Proof.
  assert (HG : 0 <= Accurate.G_s_prime)
    by (unfold Accurate.G_s_prime, Accurate.G_s; lra).
  destruct (geometric_irradiance_bounds Accurate.G_s_prime [13; -20] 23 [0; 45]
              HG eq_refl) as [(r & Hr & _ & Hb) _].
  exists r. split; [exact Hr | exact Hb].
Defined.

(** ** A segment array of one entry *)

Lemma broadcast_single_left f x ys :
  Np.broadcast f [x] ys = Returns (map (f x) ys).
Proof.
  unfold Np.broadcast. destruct ys as [|y [|y' ys]]; reflexivity.
Qed.

Lemma stretched_dt_segments d xs ys :
  map (Rdiv (2 * d)) (map (fun v => v + EPSILON) (Np.zip_with Rplus xs ys))
  = map (fun p => 2 * d / (fst p + snd p + EPSILON)) (combine xs ys).
Proof.
  revert ys; induction xs as [|x xs IH]; intros [|y ys]; simpl; auto.
  now rewrite IH.
Qed.

(** X21.  A segment array with a single distance does not raise for a longer
    profile: broadcasting applies that one distance to every segment, and
    [objective] returns the sum of [2 * d / (start + stop + EPSILON)] over
    all segments of the profile. *)
Theorem single_distance_is_stretched v d :
  calculate_dt (Np.but_last v) (Np.from_1 v) [d]
  = Returns (map (fun p => 2 * d / (fst p + snd p + EPSILON)) (segments v))
  /\ objective v [d]
     = Returns (Np.sum (map (fun p => 2 * d / (fst p + snd p + EPSILON)) (segments v))).
Proof.
  assert (H : calculate_dt (Np.but_last v) (Np.from_1 v) [d]
              = Returns (map (fun p => 2 * d / (fst p + snd p + EPSILON)) (segments v))).
  { unfold calculate_dt, Np.add, Np.div.
    rewrite broadcast_same by apply slices_same_length. cbn [bind map].
    rewrite broadcast_single_left. now rewrite stretched_dt_segments. }
  split; [exact H|]. unfold objective. now rewrite H.
Qed.

(** ** Energy bookkeeping of the table *)

Lemma cumsum_from_minus xs : forall ys a b,
  Np.zip_with Rminus (Np.cumsum_from a xs) (Np.cumsum_from b ys)
  = Np.cumsum_from (a - b) (Np.zip_with Rminus xs ys).
Proof.
  induction xs as [|x xs IH]; intros [|y ys] a b; try reflexivity.
  cbn [Np.zip_with Np.cumsum_from]. rewrite IH. f_equal; [lra|]. f_equal. lra.
Qed.

Lemma sum_zip_minus xs : forall ys,
  length xs = length ys -> Np.sum (Np.zip_with Rminus xs ys) = Np.sum xs - Np.sum ys.
Proof.
  induction xs as [|x xs IH]; intros [|y ys] H; simpl in *; try discriminate; [lra|].
  rewrite IH by lia. lra.
Qed.

Lemma last_default_indep {A : Type} (l : list A) d d' :
  l <> [] -> last l d = last l d'.
Proof.
  induction l as [|x [|y l] IH]; intros H; [congruence | reflexivity |].
  apply IH. discriminate.
Qed.

Lemma last_map_any {A B : Type} (f : A -> B) l d :
  last (map f l) (f d) = f (last l d).
Proof.
  induction l as [|x [|y l] IH]; try reflexivity. exact IH.
Qed.

(** X22.  The last battery value of the table accounts for the two energy
    columns: on index-aligned arrays it is the initial charge minus the sum
    of the per-segment energy consumption plus the sum of the per-segment
    solar gain, as a percentage of [BatteryCapacity]. *)
Theorem final_battery_balances_energy cfg fuel v seg slope lat lon r :
  length seg = pred (length v) -> length slope = pred (length v) ->
  extract_profiles cfg fuel v seg slope lat lon = Returns r ->
  exists consumption gain,
    energy_consumption_profile r = None :: map Some consumption
    /\ energy_gain_profile r = None :: map Some gain
    /\ last (battery_profile r) 0
       = (InitialBatteryCapacity cfg - Np.sum consumption + Np.sum gain)
         * 100 / BatteryCapacity cfg.
Proof.
  intros Hseg Hslope H.
  destruct (extract_profiles_aligned_inv _ _ _ _ _ _ _ _ Hseg Hslope H)
    as (P & PO & _ & HP & _ & ->).
  pose proof (segment_dt_length v seg Hseg) as Hd.
  cbn [report_of energy_consumption_profile energy_gain_profile battery_profile].
  do 2 eexists. split; [reflexivity|]. split; [reflexivity|].
  set (cons := map (fun x => x / 3600) (Np.zip_with Rmult P (segment_dt v seg))).
  set (gain := map (fun x => x / 3600) (Np.zip_with Rmult _ (segment_dt v seg))).
  assert (Hlen : length cons = length gain).
  { unfold cons, gain. rewrite !length_map, !zip_with_length;
      rewrite ?solarpower_length, ?cumsum_length; congruence. }
  unfold Np.cumsum. rewrite cumsum_from_minus.
  replace (0 - 0) with 0 by lra.
  set (h := fun x : R => (InitialBatteryCapacity cfg - x) * 100 / BatteryCapacity cfg).
  set (z := Np.zip_with Rminus cons gain).
  transitivity (last (map h (0 :: Np.cumsum_from 0 z)) (h 0)).
  - rewrite (last_default_indep _ 0 (h 0)) by discriminate.
    f_equal. cbn [map]. rewrite map_map. f_equal. unfold h. f_equal. lra.
  - rewrite last_map_any, last_cumsum_from. unfold z.
    rewrite sum_zip_minus by assumption. unfold h. lra.
Qed.

Lemma final_battery_balances_energy_witness :
  exists r consumption gain,
    extract_profiles config 7 [0; 20; 0] [100; 100] [0; 0] [13; 13] [80; 80] = Returns r
    /\ last (battery_profile r) 0
       = (InitialBatteryCapacity config - Np.sum consumption + Np.sum gain)
         * 100 / BatteryCapacity config.
Proof.
  assert (Hs : Forall (fun s => 0 <= s <= 35) (segment_avg_speed [0; 20; 0]))
    by (constructor; [simpl; lra|]; constructor; [simpl; lra | constructor]).
  destruct (extract_profiles_returns 7 [0; 20; 0] [100; 100] [0; 0] [13; 13] [80; 80]
              eq_refl eq_refl (le_n 7) Hs) as (r & Hr).
  destruct (final_battery_balances_energy config 7 [0; 20; 0] [100; 100] [0; 0]
              [13; 13] [80; 80] r eq_refl eq_refl Hr) as (c & g & _ & _ & Hlast).
  exists r, c, g. auto.
Defined.
